(** * ScoreOSMD: row segmentation and index synchronisation

    A shallow embedding of the helpers of the [ScoreOSMD] React component
    (src/ScoreOSMD.jsx): [syncIdxToScroll], [scrollToIdx], [captureRows],
    [next], [prev], [onPointerDown], [onKeyDown] and the resize callback.

    Modelling choices.
    - A DOM element is its identity (a [nat]); everything the component reads
      from the browser during one synchronous handler is gathered in a [Dom]
      snapshot: the card's bounding box and [scrollTop], the staffline groups
      found under the [<svg>], and [getBoundingClientRect().top] of every
      element.
    - Pixel coordinates are JavaScript numbers; they are modelled as exact
      rationals ([Q]).  [Math.round] is rounding to the nearest integer with
      ties towards +infinity.  Bucket coordinates, their differences, the
      median and [GAP] are integers ([Z]).  [median * 2.2] is an integer
      multiple of 1/5 and thus never within 0.1 of a rounding tie, so the
      exact product rounds like the double product does.
    - The two refs [rowsRef] and [idxRef] form the component state; the calls
      of [card.scrollTo] are logged in the state, most recent first.
    - A handler either completes or throws (reading a property of
      [undefined]); this is the [completion] type. *)

From Stdlib Require Import String ZArith QArith Qround List Bool Lia Lqa.
From Stdlib Require Import Permutation Sorted.
Import ListNotations.

Local Open Scope Z_scope.

(** ** Completions *)

Inductive completion (A : Type) : Type :=
| Ok (a : A)
| TypeError.

Arguments Ok {A} a.
Arguments TypeError {A}.

Definition bind {A B : Type} (c : completion A) (k : A -> completion B) : completion B :=
  match c with
  | Ok a => k a
  | TypeError => TypeError
  end.

Notation "'let!' x ':=' c 'in' k" := (bind c (fun x => k))
  (at level 10, x name, c at level 100, k at level 200).

(** ** The browser as seen by one handler *)

Definition Element := nat.

Record Dom := {
  (** [card.getBoundingClientRect()] *)
  card_top : Q;
  card_left : Q;
  card_width : Q;
  (** [card.scrollTop] *)
  card_scrollTop : Q;
  (** [hostRef.current?.querySelector("svg")]: [None] when there is no svg,
      otherwise [svg.querySelectorAll("g.staffline")] in document order *)
  svg_stafflines : option (list Element);
  (** [e.getBoundingClientRect().top] *)
  rect_top : Element -> Q
}.

(** ** Component state *)

Record State := {
  rowsRef : list Element;
  idxRef : Z;
  (** arguments [top] of the [card.scrollTo] calls made so far, latest first *)
  scrollTo_log : list Q
}.

Definition set_rows (rows : list Element) (st : State) : State :=
  {| rowsRef := rows; idxRef := idxRef st; scrollTo_log := scrollTo_log st |}.

Definition set_idx (i : Z) (st : State) : State :=
  {| rowsRef := rowsRef st; idxRef := i; scrollTo_log := scrollTo_log st |}.

Definition card_scrollTo (top : Q) (st : State) : State :=
  {| rowsRef := rowsRef st; idxRef := idxRef st; scrollTo_log := top :: scrollTo_log st |}.

(** ** JavaScript primitives *)

(** [Math.round] *)
Definition Math_round (x : Q) : Z := Qfloor (x + (1 # 2)).

(** [a[i]] for an integer [i]: [undefined] outside the array *)
Definition array_get {A : Type} (a : list A) (i : Z) : option A :=
  if i <? 0 then None else nth_error a (Z.to_nat i).

(** [a.length] *)
Definition array_length {A : Type} (a : list A) : Z := Z.of_nat (length a).

(** [a.sort(cmp)]: a stable sort by the sign of [cmp] *)
Fixpoint sort_insert {A : Type} (cmp : A -> A -> Z) (x : A) (l : list A) : list A :=
  match l with
  | [] => [x]
  | h :: t => if cmp x h <=? 0 then x :: h :: t else h :: sort_insert cmp x t
  end.

Definition array_sort {A : Type} (cmp : A -> A -> Z) (l : list A) : list A :=
  fold_right (sort_insert cmp) [] l.

(** ** syncIdxToScroll *)

(** [rows[i].getBoundingClientRect().top - cardBoxTop + card.scrollTop] *)
Definition content_y (dom : Dom) (e : Element) : Q :=
  (rect_top dom e - card_top dom + card_scrollTop dom)%Q.

(** [card.scrollTop + 4] *)
Definition sync_target (dom : Dom) : Q := (card_scrollTop dom + 4)%Q.

(** The [for] loop of [syncIdxToScroll]; [n] is [rows.length - i]. *)
Fixpoint sync_loop (dom : Dom) (rows : list Element) (n : nat) (i : Z) (best : Z)
  : completion Z :=
  match n with
  | O => Ok best
  | S n' =>
      match array_get rows i with
      | None => TypeError
      | Some r =>
          if Qle_bool (content_y dom r) (sync_target dom)
          then sync_loop dom rows n' (i + 1) i
          else Ok best
      end
  end.

Definition syncIdxToScroll (dom : Dom) (st : State) : completion State :=
  let rows := rowsRef st in
  if array_length rows =? 0 then Ok st
  else
    let! best := sync_loop dom rows (length rows) 0 0 in
    Ok (set_idx best st).

(** ** scrollToIdx *)

Definition clamp_index (i : Z) (len : Z) : Z := Z.max 0 (Z.min i (len - 1)).

Definition scrollToIdx (dom : Dom) (i : Z) (st : State) : completion State :=
  let rows := rowsRef st in
  if array_length rows =? 0 then Ok st
  else
    let clamped := clamp_index i (array_length rows) in
    let st := set_idx clamped st in
    match array_get rows clamped with
    | None => TypeError
    | Some e =>
        let targetTop := content_y dom e in
        Ok (card_scrollTo targetTop st)
    end.

(** ** captureRows *)

Definition EPS_SMALL : Z := 2.

Record Bucket := { bucket_y : Z; bucket_el : Element }.

(** [Math.round(g.getBoundingClientRect().top)] *)
Definition rounded_top (dom : Dom) (g : Element) : Z := Math_round (rect_top dom g).

(** [buckets.find(it => Math.abs(it.y - y) < EPS_SMALL)] *)
Definition find_bucket (buckets : list Bucket) (y : Z) : option Bucket :=
  find (fun it => Z.abs (bucket_y it - y) <? EPS_SMALL) buckets.

(** One iteration of the bucketing loop. *)
Definition add_staffline (dom : Dom) (buckets : list Bucket) (g : Element) : list Bucket :=
  let y := rounded_top dom g in
  match find_bucket buckets y with
  | Some _ => buckets
  | None => buckets ++ [{| bucket_y := y; bucket_el := g |}]
  end.

Definition bucketize (dom : Dom) (stafflines : list Element) : list Bucket :=
  fold_left (add_staffline dom) stafflines [].

Definition sort_buckets (buckets : list Bucket) : list Bucket :=
  array_sort (fun a b => bucket_y a - bucket_y b) buckets.

(** [deltas.push(buckets[i].y - buckets[i - 1].y)] for [i = 1 ..] *)
Fixpoint deltas_of (buckets : list Bucket) : list Z :=
  match buckets with
  | b0 :: (b1 :: _) as rest => (bucket_y b1 - bucket_y b0) :: deltas_of rest
  | _ => []
  end.

(** [deltas.length ? deltas[(deltas.length - 1) >> 1] : 0] on the sorted
    deltas; the index read is always inside the array, so the default of
    [nth] is never returned. *)
Definition median_of (deltas : list Z) : Z :=
  if array_length deltas =? 0 then 0
  else nth (Z.to_nat (Z.shiftr (array_length deltas - 1) 1)) deltas 0.

(** [Math.max(40, Math.round(median * 2.2))] *)
Definition gap_of_median (median : Z) : Z :=
  Z.max 40 (Math_round (inject_Z median * (22 # 10))).

Definition GAP_of (buckets : list Bucket) : Z :=
  let deltas := array_sort (fun a b => a - b) (deltas_of buckets) in
  gap_of_median (median_of deltas).

(** The anchor-picking loop; [prev] is [buckets[i - 1]], absent when [i = 0]. *)
Fixpoint pick_rows (GAP : Z) (prev : option Bucket) (buckets : list Bucket) : list Element :=
  match buckets with
  | [] => []
  | b :: rest =>
      let first_or_jump :=
        match prev with
        | None => true
        | Some p => GAP <? bucket_y b - bucket_y p
        end in
      if first_or_jump
      then bucket_el b :: pick_rows GAP (Some b) rest
      else pick_rows GAP (Some b) rest
  end.

(** The anchors computed from the staffline groups. *)
Definition extract_rows (dom : Dom) (stafflines : list Element) : list Element :=
  let buckets := sort_buckets (bucketize dom stafflines) in
  pick_rows (GAP_of buckets) None buckets.

Definition captureRows (dom : Dom) (st : State) : completion State :=
  let st := set_rows [] st in
  match svg_stafflines dom with
  | None => Ok st
  | Some stafflines =>
      let st := set_rows (extract_rows dom stafflines) st in
      syncIdxToScroll dom st
  end.

(** ** Navigation and input handlers *)

Section Handlers.

(** The [step] prop of the component. *)
Variable step : Z.

Definition next (dom : Dom) (st : State) : completion State :=
  scrollToIdx dom (idxRef st + step) st.

Definition prev (dom : Dom) (st : State) : completion State :=
  scrollToIdx dom (idxRef st - step) st.

Record PointerEvent := { button : Z; clientX : Q }.

Definition onPointerDown (dom : Dom) (e : PointerEvent) (st : State) : completion State :=
  if negb (button e =? 0) then Ok st
  else if Qle_bool (card_width dom / 2) (clientX e - card_left dom)
       then next dom st
       else prev dom st.

Record KeyboardEvent := { key : string; defaultPrevented : bool }.

Definition preventDefault (e : KeyboardEvent) : KeyboardEvent :=
  {| key := key e; defaultPrevented := true |}.

(** [keys.includes(k)] *)
Definition includes (keys : list string) (k : string) : bool :=
  existsb (String.eqb k) keys.

Definition onKeyDown (dom : Dom) (e : KeyboardEvent) (st : State)
  : completion (KeyboardEvent * State) :=
  if includes ["ArrowDown"; "PageDown"; " "]%string (key e) then
    let e := preventDefault e in
    let! st' := next dom st in Ok (e, st')
  else if includes ["ArrowUp"; "PageUp"]%string (key e) then
    let e := preventDefault e in
    let! st' := prev dom st in Ok (e, st')
  else Ok (e, st).

Definition onScroll (dom : Dom) (st : State) : completion State :=
  syncIdxToScroll dom st.

(** The [ResizeObserver] callback: [captureRows(); scrollToIdx(idxRef.current)] *)
Definition onResize (dom : Dom) (st : State) : completion State :=
  let! st1 := captureRows dom st in
  scrollToIdx dom (idxRef st1) st1.

(** First load: [captureRows(); if (rowsRef.current[0]) scrollToIdx(0)] *)
Definition onFirstRender (dom : Dom) (st : State) : completion State :=
  let! st1 := captureRows dom st in
  match array_get (rowsRef st1) 0 with
  | Some _ => scrollToIdx dom 0 st1
  | None => Ok st1
  end.

End Handlers.

(** The state of a freshly mounted component: [useRef([])], [useRef(0)]. *)
Definition initial_state : State :=
  {| rowsRef := []; idxRef := 0; scrollTo_log := [] |}.

(** ** Sample surfaces *)

(** A surface whose stafflines [0, 1, ...] have the integer tops [ys], seen in
    a card at the origin scrolled by [scroll]. *)
Definition surface (ys : list Z) (scroll : Z) : Dom :=
  {| card_top := 0; card_left := 0; card_width := 800;
     card_scrollTop := inject_Z scroll;
     svg_stafflines := Some (seq 0 (length ys));
     rect_top := fun e => inject_Z (nth e ys 0 - scroll) |}.

(** The example scenario: three systems of four lines, spacing 10, gap 70. *)
Definition example_ys : list Z := [0; 10; 20; 30; 100; 110; 120; 130; 200; 210; 220; 230].

(** A surface with arbitrary (sub-pixel) tops, in an unscrolled card at the
    origin. *)
Definition surface_at (tops : list Q) : Dom :=
  {| card_top := 0; card_left := 0; card_width := 800;
     card_scrollTop := 0;
     svg_stafflines := Some (seq 0 (length tops));
     rect_top := fun e => nth e tops 0%Q |}.

(** ** Lifecycle of one run of the effect *)

Section Lifecycle.

(** The [step] prop, and whether ["ResizeObserver" in window]. *)
Variable step : Z.
Variable hasResizeObserver : bool.

(** What one run of the effect holds besides the refs: its [disposed] flag
    and whether its listeners (pointerdown, scroll, keydown, resize) are
    registered. *)
Record Effect := { refs : State; disposed : bool; listening : bool }.

(** The effect body up to the pending load: [let disposed = false], no
    listener yet. *)
Definition start_effect (st : State) : Effect :=
  {| refs := st; disposed := false; listening := false |}.

(** The last [then] callback of the load chain. *)
Definition onRendered (dom : Dom) (c : Effect) : completion Effect :=
  if disposed c then Ok c
  else
    let! st := onFirstRender dom (refs c) in
    Ok {| refs := st; disposed := disposed c; listening := true |}.

(** The cleanup function returned by the effect. *)
Definition cleanup (c : Effect) : Effect :=
  {| refs := refs c; disposed := true; listening := false |}.

(** What can reach the effect: the load chain completing, the browser
    calling a registered listener, React calling the cleanup. *)
Inductive Event :=
| EvRendered
| EvPointerDown (e : PointerEvent)
| EvKeyDown (e : KeyboardEvent)
| EvScroll
| EvResize
| EvCleanup.

(** The listener registered for an event, run on the refs. *)
Definition listener (dom : Dom) (ev : Event) (st : State) : completion State :=
  match ev with
  | EvPointerDown e => onPointerDown step dom e st
  | EvKeyDown e => let! r := onKeyDown step dom e st in Ok (snd r)
  | EvScroll => onScroll dom st
  | EvResize => if hasResizeObserver then onResize dom st else captureRows dom st
  | EvRendered | EvCleanup => Ok st
  end.

Definition dispatch (dom : Dom) (ev : Event) (c : Effect) : completion Effect :=
  match ev with
  | EvRendered => onRendered dom c
  | EvCleanup => Ok (cleanup c)
  | _ =>
      if listening c then
        let! st := listener dom ev (refs c) in
        Ok {| refs := st; disposed := disposed c; listening := listening c |}
      else Ok c
  end.

(** A sequence of events, each with the snapshot its handler sees. *)
Fixpoint run_events (evs : list (Dom * Event)) (c : Effect) : completion Effect :=
  match evs with
  | [] => Ok c
  | (dom, ev) :: rest => let! c' := dispatch dom ev c in run_events rest c'
  end.

End Lifecycle.

(** ** The first version of the component

    It only renders the score: the effect constructs the display once,
    guarded by [renderedRef]. *)

Record Legacy := { renderedRef : bool; constructed : nat }.

(** One run of that effect; [host] tells whether [hostRef.current] is set,
    [constructed] counts the [new OpenSheetMusicDisplay] calls. *)
Definition legacy_effect (c : Legacy) (host : bool) : Legacy :=
  if negb host then c
  else if renderedRef c then c
  else {| renderedRef := true; constructed := S (constructed c) |}.

Definition legacy_mount : Legacy := {| renderedRef := false; constructed := O |}.

(** * Vocabulary of the properties *)

(** An anchor counts when its position is at or above [scrollTop + 4]. *)
Definition at_or_above (dom : Dom) (e : Element) : bool :=
  Qle_bool (content_y dom e) (sync_target dom).

(** Length of the longest prefix whose elements all satisfy [f]. *)
Fixpoint prefix_len {A : Type} (f : A -> bool) (l : list A) : nat :=
  match l with
  | [] => O
  | x :: t => if f x then S (prefix_len f t) else O
  end.

(** The index [syncIdxToScroll] computes for a non-empty anchor list. *)
Definition synced_index (dom : Dom) (rows : list Element) : Z :=
  Z.of_nat (Nat.pred (prefix_len (at_or_above dom) rows)).

(** The current index addresses an anchor whenever there is one. *)
Definition index_ok (st : State) : Prop :=
  rowsRef st <> [] -> 0 <= idxRef st < array_length (rowsRef st).

Definition forward_keys : list string := ["ArrowDown"; "PageDown"; " "]%string.
Definition backward_keys : list string := ["ArrowUp"; "PageUp"]%string.

(** The anchor list is in top-to-bottom order in the present layout. *)
Definition top_to_bottom (dom : Dom) (rows : list Element) : Prop :=
  forall j k ej ek,
    j <= k -> array_get rows j = Some ej -> array_get rows k = Some ek ->
    (content_y dom ej <= content_y dom ek)%Q.

(** [sort((a, b) => a - b)] on numbers. *)
Definition sort_numbers (l : list Z) : list Z := array_sort (fun a b => a - b) l.

(** The bucket a staffline starts when it joins none. *)
Definition new_bucket (dom : Dom) (g : Element) : Bucket :=
  {| bucket_y := rounded_top dom g; bucket_el := g |}.

(** What the bucketing loop maintains: every bucket carries the rounded top
    of its own element, which is one of the stafflines scanned; buckets are
    at least 2 px apart; every scanned staffline is within 2 px of a bucket. *)
Record buckets_inv (dom : Dom) (scanned : list Element) (buckets : list Bucket) : Prop := {
  inv_repr : forall b, In b buckets ->
               bucket_y b = rounded_top dom (bucket_el b) /\ In (bucket_el b) scanned;
  inv_apart : ForallOrdPairs (fun a b => 2 <= Z.abs (bucket_y a - bucket_y b)) buckets;
  inv_cover : forall g, In g scanned ->
                exists b, In b buckets /\ Z.abs (bucket_y b - rounded_top dom g) < 2
}.

(** [deltas_of] and [pick_rows] only look at the coordinates of the buckets;
    these are the same loops on the list of coordinates. *)
Fixpoint deltas_numbers (ys : list Z) : list Z :=
  match ys with
  | y0 :: (y1 :: _) as rest => (y1 - y0) :: deltas_numbers rest
  | _ => []
  end.

Fixpoint pick_numbers (GAP : Z) (prev : option Z) (ys : list Z) : list Z :=
  match ys with
  | [] => []
  | y :: rest =>
      let first_or_jump :=
        match prev with
        | None => true
        | Some p => GAP <? y - p
        end in
      if first_or_jump
      then y :: pick_numbers GAP (Some y) rest
      else pick_numbers GAP (Some y) rest
  end.

Definition GAP_numbers (ys : list Z) : Z :=
  gap_of_median (median_of (sort_numbers (deltas_numbers ys))).

(** The coordinates of the sorted buckets. *)
Definition sorted_ys (dom : Dom) (gs : list Element) : list Z :=
  sort_numbers (map bucket_y (bucketize dom gs)).

(** Two snapshots show the same layout when every element sits at the same
    offset inside the card's content; they may differ in scroll offset. *)
Definition same_layout (dom dom' : Dom) : Prop :=
  forall e, (content_y dom e == content_y dom' e)%Q.

(** [n] staff lines from [y] downwards, [d] apart. *)
Fixpoint line_ys (n : nat) (d y : Z) : list Z :=
  match n with
  | O => []
  | S n' => y :: line_ys n' d (y + d)
  end.

(** Systems of [n] lines each, [d] apart, starting at [starts]. *)
Definition synthetic_ys (n : nat) (d : Z) (starts : list Z) : list Z :=
  flat_map (line_ys n d) starts.

(** Between-system spacing: from the last line of a system to the first line
    of the next one. *)
Fixpoint system_gaps (n : nat) (d : Z) (starts : list Z) : list Z :=
  match starts with
  | s :: (s' :: _) as rest => (s' - (s + (Z.of_nat n - 1) * d)) :: system_gaps n d rest
  | _ => []
  end.

(** Two coordinates the bucketing keeps apart. *)
Definition apart (a b : Z) : Prop := 2 <= Z.abs (a - b).

(** The system gaps the extraction separates: those above the threshold
    derived from the line spacing [d]. *)
Definition gaps_exceed_threshold (n : nat) (d : Z) (starts : list Z) : Prop :=
  Forall (fun g => gap_of_median d < g) (system_gaps n d starts).

(** The specification's wording of the gap list: the differences between
    adjacent bucket coordinates. *)
Definition adjacent_gaps (ys : list Z) : list Z :=
  map (fun ab => snd ab - fst ab) (combine ys (tl ys)).

(** The specification's wording of the median of a sorted gap list: the
    middle element, the lower of the two middle elements on an even count,
    and 0 when there is no gap. *)
Definition lower_median (gaps : list Z) : Z :=
  match length gaps with
  | O => 0
  | S _ as count =>
      if Nat.even count then nth (count / 2 - 1) gaps 0 else nth (count / 2) gaps 0
  end.

(** The specification's wording of the threshold. *)
Definition spec_GAP (ys : list Z) : Z :=
  Z.max 40 (Math_round (inject_Z (lower_median (sort_numbers (adjacent_gaps ys))) * (22 # 10))).

(** The anchors an extraction finds in a snapshot. *)
Definition surface_rows (dom : Dom) : list Element :=
  match svg_stafflines dom with
  | None => []
  | Some gs => extract_rows dom gs
  end.

(** [next] once per snapshot of [doms], in order. *)
Fixpoint press_next (step : Z) (doms : list Dom) (st : State) : completion State :=
  match doms with
  | [] => Ok st
  | dom :: rest => let! st' := next step dom st in press_next step rest st'
  end.

(** The events the browser sends to listeners. *)
Definition input_event (ev : Event) : bool :=
  match ev with
  | EvPointerDown _ | EvKeyDown _ | EvScroll | EvResize => true
  | EvRendered | EvCleanup => false
  end.

(** * Properties *)

(** ** The example scenario *)

Example example_extract :
  extract_rows (surface example_ys 0) (seq 0 12) = [0%nat; 4%nat; 8%nat].
Proof. vm_compute. reflexivity. Qed.

Example example_advance :
  (let! st1 := captureRows (surface example_ys 0) initial_state in next 1 (surface example_ys 0) st1)
  = Ok {| rowsRef := [0%nat; 4%nat; 8%nat]; idxRef := 1; scrollTo_log := [100 # 1] |}.
Proof. vm_compute. reflexivity. Qed.

(** ** Arrays *)

Lemma array_length_nil_iff {A : Type} (a : list A) :
  (array_length a =? 0) = true <-> a = [].
Proof.
  unfold array_length. rewrite Z.eqb_eq. destruct a; simpl; split; intros H;
    try reflexivity; try discriminate; lia.
Qed.

Lemma array_length_pos {A : Type} (a : list A) :
  a <> [] -> 0 < array_length a.
Proof.
  unfold array_length. destruct a; simpl; [congruence | lia].
Qed.

Lemma array_get_in_range {A : Type} (a : list A) (i : Z) :
  0 <= i < array_length a -> exists x, array_get a i = Some x.
Proof.
  unfold array_get, array_length. intros H.
  destruct (Z.ltb_spec i 0) as [Hneg | _]; [lia |].
  destruct (nth_error a (Z.to_nat i)) as [x |] eqn:E; [now exists x |].
  apply nth_error_None in E. lia.
Qed.

Lemma array_get_Some_range {A : Type} (a : list A) (i : Z) (x : A) :
  array_get a i = Some x -> 0 <= i < array_length a.
Proof.
  unfold array_get, array_length.
  destruct (Z.ltb_spec i 0) as [Hneg | Hpos]; [discriminate |].
  intros E. assert (Hn : nth_error a (Z.to_nat i) <> None) by congruence.
  apply nth_error_Some in Hn. lia.
Qed.

Lemma array_get_of_nat {A : Type} (a : list A) (n : nat) :
  array_get a (Z.of_nat n) = nth_error a n.
Proof.
  unfold array_get. destruct (Z.ltb_spec (Z.of_nat n) 0); [lia |].
  now rewrite Nat2Z.id.
Qed.

Lemma array_get_app_middle {A : Type} (pre rest : list A) (x : A) :
  array_get (pre ++ x :: rest) (Z.of_nat (length pre)) = Some x.
Proof.
  rewrite array_get_of_nat, nth_error_app2 by lia.
  now rewrite Nat.sub_diag.
Qed.

(** ** Clamping *)

Lemma clamp_index_range (i len : Z) :
  0 < len -> 0 <= clamp_index i len <= len - 1.
Proof. unfold clamp_index. lia. Qed.

Lemma clamp_index_valid (i len : Z) :
  0 <= i <= len - 1 -> clamp_index i len = i.
Proof. unfold clamp_index. lia. Qed.

(** ** The scan of [syncIdxToScroll] *)

Lemma prefix_len_le {A : Type} (f : A -> bool) (l : list A) :
  (prefix_len f l <= length l)%nat.
Proof. induction l as [| x t IH]; simpl; [lia |]. destruct (f x); lia. Qed.

Lemma prefix_len_inside {A : Type} (f : A -> bool) (l : list A) (j : nat) (x : A) :
  (j < prefix_len f l)%nat -> nth_error l j = Some x -> f x = true.
Proof.
  revert j. induction l as [| h t IH]; simpl; intros j Hj E; [lia |].
  destruct (f h) eqn:Fh; [| lia].
  destruct j as [| j]; simpl in E.
  - now inversion E; subst.
  - apply (IH j); [lia | exact E].
Qed.

Lemma prefix_len_stop {A : Type} (f : A -> bool) (l : list A) (x : A) :
  nth_error l (prefix_len f l) = Some x -> f x = false.
Proof.
  induction l as [| h t IH]; simpl; intros E; [discriminate |].
  destruct (f h) eqn:Fh; simpl in E.
  - now apply IH.
  - now inversion E; subst.
Qed.

Lemma sync_loop_prefix (dom : Dom) (rows : list Element) :
  forall (rest pre : list Element) (best : Z),
    rows = pre ++ rest ->
    sync_loop dom rows (length rest) (Z.of_nat (length pre)) best
    = Ok (match prefix_len (at_or_above dom) rest with
          | O => best
          | S k => Z.of_nat (length pre + k)
          end).
Proof.
  induction rest as [| r rest IH]; intros pre best Hrows; simpl; [reflexivity |].
  subst rows. rewrite array_get_app_middle.
  unfold at_or_above at 1.
  destruct (Qle_bool (content_y dom r) (sync_target dom)); [| reflexivity].
  replace (Z.of_nat (length pre) + 1) with (Z.of_nat (length (pre ++ [r])))
    by (rewrite length_app; simpl; lia).
  rewrite (IH (pre ++ [r])) by (now rewrite <- app_assoc).
  rewrite length_app; simpl.
  destruct (prefix_len (at_or_above dom) rest); f_equal; lia.
Qed.

Lemma sync_loop_total (dom : Dom) (rows : list Element) :
  sync_loop dom rows (length rows) 0 0 = Ok (synced_index dom rows).
Proof.
  pose proof (sync_loop_prefix dom rows rows [] 0 eq_refl) as H.
  simpl in H. rewrite H. unfold synced_index.
  destruct (prefix_len (at_or_above dom) rows); simpl; reflexivity.
Qed.

Lemma syncIdxToScroll_eq (dom : Dom) (st : State) :
  syncIdxToScroll dom st
  = Ok (match rowsRef st with
        | [] => st
        | _ :: _ => set_idx (synced_index dom (rowsRef st)) st
        end).
Proof.
  unfold syncIdxToScroll. rewrite sync_loop_total.
  destruct (rowsRef st) eqn:E; simpl; reflexivity.
Qed.

Lemma synced_index_range (dom : Dom) (rows : list Element) :
  rows <> [] -> 0 <= synced_index dom rows < array_length rows.
Proof.
  intros Hne. unfold synced_index, array_length.
  pose proof (prefix_len_le (at_or_above dom) rows).
  destruct rows; [congruence | simpl in *; lia].
Qed.

Lemma scrollToIdx_eq (dom : Dom) (i : Z) (st : State) :
  rowsRef st <> [] ->
  exists e,
    array_get (rowsRef st) (clamp_index i (array_length (rowsRef st))) = Some e /\
    scrollToIdx dom i st
    = Ok (card_scrollTo (content_y dom e)
            (set_idx (clamp_index i (array_length (rowsRef st))) st)).
Proof.
  intros Hne. unfold scrollToIdx.
  destruct (array_length (rowsRef st) =? 0) eqn:E.
  - apply array_length_nil_iff in E. contradiction.
  - destruct (array_get_in_range (rowsRef st)
                (clamp_index i (array_length (rowsRef st)))) as [e He].
    + pose proof (clamp_index_range i _ (array_length_pos _ Hne)). lia.
    + exists e. now rewrite He.
Qed.

Lemma scrollToIdx_empty (dom : Dom) (i : Z) (st : State) :
  rowsRef st = [] -> scrollToIdx dom i st = Ok st.
Proof. intros E. unfold scrollToIdx. now rewrite E. Qed.

(** ** Invariant of the current index *)

Lemma scrollToIdx_index_ok (dom : Dom) (i : Z) (st : State) :
  exists st', scrollToIdx dom i st = Ok st' /\ rowsRef st' = rowsRef st /\ index_ok st'.
Proof.
  destruct (rowsRef st) as [| r rows] eqn:E.
  - exists st. rewrite scrollToIdx_empty by exact E.
    split; [reflexivity |]. split; [exact E |].
    unfold index_ok. rewrite E. congruence.
  - assert (Hne : rowsRef st <> []) by (rewrite E; discriminate).
    destruct (scrollToIdx_eq dom i st Hne) as [e [_ Heq]].
    rewrite Heq. eexists; split; [reflexivity |]. simpl. split; [exact E |].
    unfold index_ok; simpl. intros _.
    pose proof (clamp_index_range i _ (array_length_pos _ Hne)). lia.
Qed.

Lemma syncIdxToScroll_index_ok (dom : Dom) (st : State) :
  exists st', syncIdxToScroll dom st = Ok st' /\ rowsRef st' = rowsRef st /\
              (rowsRef st <> [] -> index_ok st').
Proof.
  rewrite syncIdxToScroll_eq. eexists; split; [reflexivity |].
  destruct (rowsRef st) as [| r rows] eqn:E; simpl; split; auto; try congruence.
  intros _. unfold index_ok; simpl. rewrite E. intros Hne.
  now apply synced_index_range.
Qed.

Lemma captureRows_eq (dom : Dom) (st : State) :
  captureRows dom st
  = Ok (match svg_stafflines dom with
        | None => set_rows [] st
        | Some stafflines =>
            match extract_rows dom stafflines with
            | [] => set_rows [] st
            | rows => set_idx (synced_index dom rows) (set_rows rows st)
            end
        end).
Proof.
  unfold captureRows. destruct (svg_stafflines dom) as [stafflines |]; [| reflexivity].
  rewrite syncIdxToScroll_eq. simpl.
  destruct (extract_rows dom stafflines); reflexivity.
Qed.

Lemma captureRows_index_ok (dom : Dom) (st : State) :
  exists st', captureRows dom st = Ok st' /\ index_ok st'.
Proof.
  rewrite captureRows_eq. eexists; split; [reflexivity |].
  destruct (svg_stafflines dom) as [stafflines |]; [| unfold index_ok; simpl; congruence].
  destruct (extract_rows dom stafflines) as [| r rows] eqn:E;
    [unfold index_ok; simpl; congruence |].
  unfold index_ok; simpl. intros Hne. now apply synced_index_range.
Qed.

(** C9.  Every operation that writes the current index completes, and
    afterwards the index addresses an anchor whenever the anchor list is
    non-empty: [scrollToIdx], [syncIdxToScroll] (once the list is non-empty)
    and [captureRows]. *)
Theorem index_in_range_after_write (dom : Dom) (st : State) (i : Z) :
  (exists st', scrollToIdx dom i st = Ok st' /\
               (rowsRef st' <> [] -> 0 <= idxRef st' < array_length (rowsRef st'))) /\
  (exists st', syncIdxToScroll dom st = Ok st' /\
               (rowsRef st <> [] ->
                rowsRef st' <> [] /\ 0 <= idxRef st' < array_length (rowsRef st'))) /\
  (exists st', captureRows dom st = Ok st' /\
               (rowsRef st' <> [] -> 0 <= idxRef st' < array_length (rowsRef st'))).
Proof.
  split; [| split].
  - destruct (scrollToIdx_index_ok dom i st) as [st' [H [_ Hok]]]. now exists st'.
  - destruct (syncIdxToScroll_index_ok dom st) as [st' [H [Hrows Hok]]].
    exists st'. split; [exact H |]. intros Hne. split; [now rewrite Hrows |].
    apply (Hok Hne). now rewrite Hrows.
  - destruct (captureRows_index_ok dom st) as [st' [H Hok]]. now exists st'.
Qed.

(** The invariant at work on the sample surface, scrolled to the second
    system: extraction leaves index 1 of 3. *)
Lemma index_in_range_after_write_witness :
  exists st', captureRows (surface example_ys 100) initial_state = Ok st' /\
              rowsRef st' = [0%nat; 4%nat; 8%nat] /\ idxRef st' = 1 /\
              0 <= idxRef st' < array_length (rowsRef st').
Proof.
  destruct (index_in_range_after_write (surface example_ys 100) initial_state 0)
    as [_ [_ [st' [H Hrange]]]].
  exists st'. split; [exact H |].
  assert (E : Ok st' = Ok {| rowsRef := [0%nat; 4%nat; 8%nat]; idxRef := 1;
                             scrollTo_log := [] |})
    by (rewrite <- H; vm_compute; reflexivity).
  inversion E; subst; simpl. repeat split; lia.
Defined.

(** ** Navigation *)

(** C6.  [scrollToIdx] (absolute) and [next]/[prev] (relative, by [step])
    clamp the target to [0, rowCount-1]: [scrollToIdx i] sets the index to
    [max(0, min(i, rowCount-1))], [next] to the clamp of the current index
    plus [step] and [prev] to the clamp of the current index minus [step],
    each asking the card to scroll to that anchor's offset; so stepping back
    from index 0 stays at 0 and stepping forward from the last index stays
    there.  With an empty anchor list each of them completes without
    changing the state: neither the index nor the scroll-command log. *)
Theorem navigation_clamps (step : Z) (dom : Dom) (st : State) (i : Z) :
  (rowsRef st = [] ->
     scrollToIdx dom i st = Ok st /\ next step dom st = Ok st /\ prev step dom st = Ok st) /\
  (rowsRef st <> [] ->
     let len := array_length (rowsRef st) in
     (exists st', scrollToIdx dom i st = Ok st' /\
        rowsRef st' = rowsRef st /\
        idxRef st' = Z.max 0 (Z.min i (len - 1)) /\
        0 <= idxRef st' <= len - 1 /\
        (0 <= i <= len - 1 -> idxRef st' = i) /\
        exists e, array_get (rowsRef st) (idxRef st') = Some e /\
                  scrollTo_log st' = content_y dom e :: scrollTo_log st) /\
     (forall s, s < 0 -> idxRef st = 0 ->
        exists st', scrollToIdx dom (idxRef st + s) st = Ok st' /\ idxRef st' = 0) /\
     (forall s, 0 < s -> idxRef st = len - 1 ->
        exists st', scrollToIdx dom (idxRef st + s) st = Ok st' /\ idxRef st' = len - 1) /\
     (0 < step -> idxRef st = 0 ->
        exists st', prev step dom st = Ok st' /\ idxRef st' = 0) /\
     (0 < step -> idxRef st = len - 1 ->
        exists st', next step dom st = Ok st' /\ idxRef st' = len - 1) /\
     (exists st', next step dom st = Ok st' /\
        rowsRef st' = rowsRef st /\
        idxRef st' = Z.max 0 (Z.min (idxRef st + step) (len - 1)) /\
        exists e, array_get (rowsRef st) (idxRef st') = Some e /\
                  scrollTo_log st' = content_y dom e :: scrollTo_log st) /\
     (exists st', prev step dom st = Ok st' /\
        rowsRef st' = rowsRef st /\
        idxRef st' = Z.max 0 (Z.min (idxRef st - step) (len - 1)) /\
        exists e, array_get (rowsRef st) (idxRef st') = Some e /\
                  scrollTo_log st' = content_y dom e :: scrollTo_log st)).
Proof.
  split.
  - intros E. unfold next, prev. now rewrite !scrollToIdx_empty by exact E.
  - intros Hne len.
    pose proof (array_length_pos _ Hne) as Hlen. fold len in Hlen.
    assert (Hgo : forall j, exists st', scrollToIdx dom j st = Ok st' /\
                   rowsRef st' = rowsRef st /\
                   idxRef st' = Z.max 0 (Z.min j (len - 1)) /\
                   exists e, array_get (rowsRef st) (idxRef st') = Some e /\
                             scrollTo_log st' = content_y dom e :: scrollTo_log st).
    { intros j. destruct (scrollToIdx_eq dom j st Hne) as [e [He Heq]].
      rewrite Heq. eexists; split; [reflexivity |]. simpl.
      split; [reflexivity |]. split; [reflexivity |]. exists e. now split. }
    split; [| split; [| split; [| split; [| split; [| split]]]]].
    + destruct (Hgo i) as [st' [H [Hr [Hi He]]]]. exists st'.
      repeat (split; try assumption); lia.
    + intros s Hs H0. destruct (Hgo (idxRef st + s)) as [st' [H [_ [Hi _]]]].
      exists st'. split; [exact H | lia].
    + intros s Hs Hl. destruct (Hgo (idxRef st + s)) as [st' [H [_ [Hi _]]]].
      exists st'. split; [exact H | lia].
    + intros Hs H0. unfold prev.
      destruct (Hgo (idxRef st - step)) as [st' [H [_ [Hi _]]]].
      exists st'. split; [exact H | lia].
    + intros Hs Hl. unfold next.
      destruct (Hgo (idxRef st + step)) as [st' [H [_ [Hi _]]]].
      exists st'. split; [exact H | lia].
    + unfold next. exact (Hgo (idxRef st + step)).
    + unfold prev. exact (Hgo (idxRef st - step)).
Qed.

(** On the sample surface with its three anchors and [step = 2]: from row 0
    [next] goes to row 2 and asks for the offset of the third anchor, from
    row 2 [prev] goes back to row 0, and from row 1 [next] is clamped to
    row 2. *)
Lemma navigation_clamps_witness :
  (exists st', next 2 (surface example_ys 0)
                 {| rowsRef := [0%nat; 4%nat; 8%nat]; idxRef := 0; scrollTo_log := [] |}
               = Ok st' /\
               idxRef st' = 2 /\
               scrollTo_log st' = [content_y (surface example_ys 0) 8%nat]) /\
  (exists st', prev 2 (surface example_ys 200)
                 {| rowsRef := [0%nat; 4%nat; 8%nat]; idxRef := 2; scrollTo_log := [] |}
               = Ok st' /\
               idxRef st' = 0 /\
               scrollTo_log st' = [content_y (surface example_ys 200) 0%nat]) /\
  (exists st', next 2 (surface example_ys 100)
                 {| rowsRef := [0%nat; 4%nat; 8%nat]; idxRef := 1; scrollTo_log := [] |}
               = Ok st' /\
               idxRef st' = 2).
Proof.
  split; [| split].
  - destruct (navigation_clamps 2 (surface example_ys 0)
                {| rowsRef := [0%nat; 4%nat; 8%nat]; idxRef := 0; scrollTo_log := [] |} 0)
      as [_ Hmove].
    destruct (Hmove ltac:(discriminate))
      as [_ [_ [_ [_ [_ [[st' [H [_ [Hi [e [He Hlog]]]]]] _]]]]]].
    exists st'. split; [exact H |].
    assert (Hidx : idxRef st' = 2) by (rewrite Hi; reflexivity).
    split; [exact Hidx |].
    rewrite Hidx in He. vm_compute in He. inversion He; subst e. exact Hlog.
  - destruct (navigation_clamps 2 (surface example_ys 200)
                {| rowsRef := [0%nat; 4%nat; 8%nat]; idxRef := 2; scrollTo_log := [] |} 0)
      as [_ Hmove].
    destruct (Hmove ltac:(discriminate))
      as [_ [_ [_ [_ [_ [_ [st' [H [_ [Hi [e [He Hlog]]]]]]]]]]]].
    exists st'. split; [exact H |].
    assert (Hidx : idxRef st' = 0) by (rewrite Hi; reflexivity).
    split; [exact Hidx |].
    rewrite Hidx in He. vm_compute in He. inversion He; subst e. exact Hlog.
  - destruct (navigation_clamps 2 (surface example_ys 100)
                {| rowsRef := [0%nat; 4%nat; 8%nat]; idxRef := 1; scrollTo_log := [] |} 0)
      as [_ Hmove].
    destruct (Hmove ltac:(discriminate))
      as [_ [_ [_ [_ [_ [[st' [H [_ [Hi _]]]] _]]]]]].
    exists st'. split; [exact H |]. rewrite Hi. reflexivity.
Defined.

(** ** Input bindings *)

Lemma includes_In (keys : list string) (k : string) :
  includes keys k = true <-> In k keys.
Proof.
  unfold includes. rewrite existsb_exists. split.
  - intros [x [Hin Heq]]. apply String.eqb_eq in Heq. now subst.
  - intros Hin. exists k. split; [exact Hin | apply String.eqb_refl].
Qed.







(** ** Scroll synchronisation *)

Lemma at_or_above_iff (dom : Dom) (e : Element) :
  at_or_above dom e = true <-> (content_y dom e <= card_scrollTop dom + 4)%Q.
Proof. unfold at_or_above, sync_target. apply Qle_bool_iff. Qed.

Lemma synced_index_first_below (dom : Dom) (rows : list Element) (e0 : Element) :
  array_get rows 0 = Some e0 -> at_or_above dom e0 = false ->
  synced_index dom rows = 0.
Proof.
  unfold synced_index. destruct rows as [| r rows]; [discriminate |].
  cbn. intros E H. inversion E; subst. now rewrite H.
Qed.

(** The scan keeps the longest prefix of anchors at or above the target. *)
Lemma synced_index_prefix (dom : Dom) (rows : list Element) (e0 : Element) :
  array_get rows 0 = Some e0 -> at_or_above dom e0 = true ->
  (forall j e, 0 <= j <= synced_index dom rows -> array_get rows j = Some e ->
               at_or_above dom e = true) /\
  (forall e, array_get rows (synced_index dom rows + 1) = Some e ->
             at_or_above dom e = false).
Proof.
  intros H0 Hq. unfold synced_index.
  set (p := prefix_len (at_or_above dom) rows).
  assert (Hp : (1 <= p)%nat).
  { subst p. destruct rows as [| r rows]; [discriminate |].
    cbn in H0. inversion H0; subst. simpl. rewrite Hq. lia. }
  split.
  - intros j e Hj He.
    apply (prefix_len_inside (at_or_above dom) rows (Z.to_nat j)); [fold p; lia |].
    rewrite <- array_get_of_nat, Z2Nat.id by lia. exact He.
  - intros e He.
    replace (Z.of_nat (Nat.pred p) + 1) with (Z.of_nat p) in He by lia.
    rewrite array_get_of_nat in He.
    now apply (prefix_len_stop (at_or_above dom) rows).
Qed.

Lemma synced_index_last (dom : Dom) (rows : list Element) :
  top_to_bottom dom rows ->
  (exists j e, array_get rows j = Some e /\ at_or_above dom e = true) ->
  (exists e, array_get rows (synced_index dom rows) = Some e /\ at_or_above dom e = true) /\
  (forall j e, synced_index dom rows < j -> array_get rows j = Some e ->
               at_or_above dom e = false).
Proof.
  intros Hsorted [j [e [Hj He]]].
  pose proof (array_get_Some_range _ _ _ Hj) as Hjr.
  set (p := prefix_len (at_or_above dom) rows).
  assert (Hp : (1 <= p)%nat).
  { destruct rows as [| r rows]; [unfold array_length in Hjr; simpl in Hjr; lia |].
    subst p. simpl. destruct (at_or_above dom r) eqn:Hr; [lia |].
    exfalso. apply at_or_above_iff in He.
    assert (Hle : (content_y dom r <= content_y dom e)%Q)
      by (apply (Hsorted 0 j); [lia | reflexivity | exact Hj]).
    assert (Hr' : at_or_above dom r = true) by (apply at_or_above_iff; lra).
    congruence. }
  pose proof (prefix_len_le (at_or_above dom) rows) as Hple. fold p in Hple.
  unfold synced_index. fold p. split.
  - destruct (array_get_in_range rows (Z.of_nat (Nat.pred p))) as [x Hx];
      [unfold array_length; lia |].
    exists x. split; [exact Hx |].
    rewrite array_get_of_nat in Hx.
    apply (prefix_len_inside (at_or_above dom) rows (Nat.pred p)); [fold p; lia | exact Hx].
  - intros k ek Hk Hek.
    pose proof (array_get_Some_range _ _ _ Hek) as Hkr. unfold array_length in Hkr.
    destruct (array_get_in_range rows (Z.of_nat p)) as [x Hx];
      [unfold array_length; lia |].
    assert (Hstop : at_or_above dom x = false).
    { rewrite array_get_of_nat in Hx. now apply (prefix_len_stop (at_or_above dom) rows). }
    destruct (at_or_above dom ek) eqn:Hq; [| reflexivity].
    exfalso. apply at_or_above_iff in Hq.
    assert (Hle : (content_y dom x <= content_y dom ek)%Q)
      by (apply (Hsorted (Z.of_nat p) k); [lia | exact Hx | exact Hek]).
    assert (Hx' : at_or_above dom x = true) by (apply at_or_above_iff; lra).
    congruence.
Qed.

(** C5.  [syncIdxToScroll] always completes, whatever the anchor list and
    the layout (stale anchors included), and touches nothing but the index.
    With a non-empty anchor list in top-to-bottom order, the new index is
    that of the last anchor whose position is at or above [scrollTop + 4]:
    that anchor is at or above the target and every later one is below it.
    (With an empty list the state is unchanged; when even the first anchor
    is below the target the index is 0.  In any order, stale or not, the
    index ends the longest prefix of anchors at or above the target.) *)
Theorem syncIdxToScroll_last_at_or_above (dom : Dom) (st : State) :
  exists st',
    syncIdxToScroll dom st = Ok st' /\
    rowsRef st' = rowsRef st /\ scrollTo_log st' = scrollTo_log st /\
    (rowsRef st = [] -> st' = st) /\
    (rowsRef st <> [] ->
       0 <= idxRef st' < array_length (rowsRef st) /\
       (top_to_bottom dom (rowsRef st) ->
        (exists j e, array_get (rowsRef st) j = Some e /\
                     (content_y dom e <= card_scrollTop dom + 4)%Q) ->
        (exists e, array_get (rowsRef st) (idxRef st') = Some e /\
                   (content_y dom e <= card_scrollTop dom + 4)%Q) /\
        (forall j e, idxRef st' < j -> array_get (rowsRef st) j = Some e ->
                     ~ (content_y dom e <= card_scrollTop dom + 4)%Q)) /\
       (forall e0, array_get (rowsRef st) 0 = Some e0 ->
                   ~ (content_y dom e0 <= card_scrollTop dom + 4)%Q ->
                   idxRef st' = 0) /\
       (forall e0, array_get (rowsRef st) 0 = Some e0 ->
                   (content_y dom e0 <= card_scrollTop dom + 4)%Q ->
                   (forall j e, 0 <= j <= idxRef st' ->
                                array_get (rowsRef st) j = Some e ->
                                (content_y dom e <= card_scrollTop dom + 4)%Q) /\
                   (forall e, array_get (rowsRef st) (idxRef st' + 1) = Some e ->
                              ~ (content_y dom e <= card_scrollTop dom + 4)%Q))).
Proof.
  rewrite syncIdxToScroll_eq. eexists; split; [reflexivity |].
  destruct (rowsRef st) as [| r rows] eqn:E; simpl.
  - repeat split; congruence.
  - rewrite E. split; [reflexivity |]. split; [reflexivity |].
    split; [congruence |]. intros Hne. split; [| split; [| split]].
    + now apply synced_index_range.
    + intros Hsorted [j [e [Hj He]]].
      destruct (synced_index_last dom (r :: rows) Hsorted) as [[x [Hx Hxq]] Hlater].
      { exists j, e. split; [exact Hj | now apply at_or_above_iff]. }
      split.
      * exists x. split; [exact Hx | now apply at_or_above_iff].
      * intros k ek Hk Hek Hq. apply at_or_above_iff in Hq.
        rewrite (Hlater k ek Hk Hek) in Hq. discriminate.
    + intros e0 H0 Hbelow. apply (synced_index_first_below dom _ e0 H0).
      destruct (at_or_above dom e0) eqn:Hq; [| reflexivity].
      apply at_or_above_iff in Hq. contradiction.
    + intros e0 H0 Habove. apply at_or_above_iff in Habove.
      destruct (synced_index_prefix dom (r :: rows) e0 H0 Habove) as [Hin Hstop].
      split.
      * intros j e Hj He. apply at_or_above_iff. now apply (Hin j e).
      * intros e He Hq. apply at_or_above_iff in Hq.
        rewrite (Hstop e He) in Hq. discriminate.
Qed.

(** On the sample surface scrolled to 100 px, anchors at 0, 100 and 200:
    the target is 104 and the last anchor at or above it is the second. *)
Lemma syncIdxToScroll_last_at_or_above_witness :
  exists st',
    syncIdxToScroll (surface example_ys 100)
      {| rowsRef := [0%nat; 4%nat; 8%nat]; idxRef := 0; scrollTo_log := [] |} = Ok st' /\
    idxRef st' = 1.
Proof.
  destruct (syncIdxToScroll_last_at_or_above (surface example_ys 100)
              {| rowsRef := [0%nat; 4%nat; 8%nat]; idxRef := 0; scrollTo_log := [] |})
    as [st' [H _]].
  exists st'. split; [exact H |].
  assert (E : Ok st' = Ok {| rowsRef := [0%nat; 4%nat; 8%nat]; idxRef := 1;
                             scrollTo_log := [] |})
    by (rewrite <- H; vm_compute; reflexivity).
  now inversion E.
Defined.

(** ** Sorting *)

Lemma sort_insert_perm {A : Type} (cmp : A -> A -> Z) (x : A) (l : list A) :
  Permutation (sort_insert cmp x l) (x :: l).
Proof.
  induction l as [| h t IH]; simpl; [apply Permutation_refl |].
  destruct (cmp x h <=? 0); [apply Permutation_refl |].
  eapply perm_trans; [apply perm_skip, IH | apply perm_swap].
Qed.

Lemma array_sort_perm {A : Type} (cmp : A -> A -> Z) (l : list A) :
  Permutation (array_sort cmp l) l.
Proof.
  induction l as [| x t IH]; simpl; [constructor |].
  eapply perm_trans; [apply sort_insert_perm | now apply perm_skip].
Qed.

Lemma map_sort_insert_key {A : Type} (k : A -> Z) (x : A) (l : list A) :
  map k (sort_insert (fun a b => k a - k b) x l)
  = sort_insert (fun a b => a - b) (k x) (map k l).
Proof.
  induction l as [| h t IH]; simpl; [reflexivity |].
  destruct (k x - k h <=? 0); simpl; [reflexivity | now rewrite IH].
Qed.

Lemma map_array_sort_key {A : Type} (k : A -> Z) (l : list A) :
  map k (array_sort (fun a b => k a - k b) l) = sort_numbers (map k l).
Proof.
  unfold sort_numbers. induction l as [| x t IH]; simpl; [reflexivity |].
  now rewrite map_sort_insert_key, IH.
Qed.

Lemma sort_insert_sorted (x : Z) (l : list Z) :
  StronglySorted Z.le l -> StronglySorted Z.le (sort_insert (fun a b => a - b) x l).
Proof.
  induction l as [| h t IH]; simpl; intros Hs.
  - constructor; constructor.
  - inversion Hs as [| ? ? Ht Hall]; subst.
    destruct (Z.leb_spec (x - h) 0) as [Hle | Hgt].
    + constructor; [exact Hs |]. constructor; [lia |].
      eapply Forall_impl; [| exact Hall]. simpl; intros; lia.
    + constructor; [now apply IH |].
      eapply Permutation_Forall; [apply Permutation_sym, sort_insert_perm |].
      constructor; [lia | exact Hall].
Qed.

Lemma sort_numbers_sorted (l : list Z) : StronglySorted Z.le (sort_numbers l).
Proof.
  unfold sort_numbers. induction l as [| x t IH]; simpl; [constructor |].
  now apply sort_insert_sorted.
Qed.

Lemma sort_numbers_perm (l : list Z) : Permutation (sort_numbers l) l.
Proof. apply array_sort_perm. Qed.

(** Two sorted lists with the same elements are equal. *)
Lemma sorted_perm_unique (l1 : list Z) :
  forall l2, StronglySorted Z.le l1 -> StronglySorted Z.le l2 ->
             Permutation l1 l2 -> l1 = l2.
Proof.
  induction l1 as [| a t1 IH]; intros l2 H1 H2 Hp.
  - apply Permutation_nil in Hp. now subst.
  - destruct l2 as [| b t2]; [apply Permutation_sym, Permutation_nil in Hp; discriminate |].
    inversion H1 as [| ? ? Hs1 Ha]; subst.
    inversion H2 as [| ? ? Hs2 Hb]; subst.
    assert (Hab : a = b).
    { assert (Hina : In a (b :: t2)) by (eapply Permutation_in; [exact Hp | now left]).
      assert (Hinb : In b (a :: t1))
        by (eapply Permutation_in; [apply Permutation_sym, Hp | now left]).
      rewrite Forall_forall in Ha, Hb.
      destruct Hina as [-> | Hina]; [reflexivity |].
      destruct Hinb as [-> | Hinb]; [reflexivity |].
      specialize (Ha _ Hinb). specialize (Hb _ Hina). lia. }
    subst b. f_equal. apply IH; try assumption.
    now apply Permutation_cons_inv in Hp.
Qed.

Lemma sort_numbers_unique (l l' : list Z) :
  StronglySorted Z.le l' -> Permutation l l' -> sort_numbers l = l'.
Proof.
  intros Hs Hp. apply sorted_perm_unique; [apply sort_numbers_sorted | exact Hs |].
  eapply perm_trans; [apply sort_numbers_perm | exact Hp].
Qed.

(** ** Bucketing *)

Lemma find_bucket_Some (buckets : list Bucket) (y : Z) (b : Bucket) :
  find_bucket buckets y = Some b -> In b buckets /\ Z.abs (bucket_y b - y) < 2.
Proof.
  unfold find_bucket. intros H. apply find_some in H. destruct H as [Hin Hlt].
  split; [exact Hin |]. now apply Z.ltb_lt in Hlt.
Qed.

Lemma find_bucket_None (buckets : list Bucket) (y : Z) :
  find_bucket buckets y = None <->
  (forall b, In b buckets -> 2 <= Z.abs (bucket_y b - y)).
Proof.
  unfold find_bucket, EPS_SMALL. split.
  - intros H b Hin. pose proof (find_none _ _ H b Hin) as Hf. simpl in Hf.
    apply Z.ltb_ge in Hf. exact Hf.
  - induction buckets as [| h t IH]; simpl; intros H; [reflexivity |].
    destruct (Z.ltb_spec (Z.abs (bucket_y h - y)) 2) as [Hlt | Hge].
    + specialize (H h (or_introl eq_refl)). lia.
    + apply IH. intros b Hb. apply H. now right.
Qed.

Lemma add_staffline_join (dom : Dom) (buckets : list Bucket) (g : Element) :
  (exists b, In b buckets /\ Z.abs (bucket_y b - rounded_top dom g) < 2) ->
  add_staffline dom buckets g = buckets.
Proof.
  intros [b [Hin Hlt]]. unfold add_staffline.
  destruct (find_bucket buckets (rounded_top dom g)) eqn:E; [reflexivity |].
  rewrite find_bucket_None in E. specialize (E b Hin). lia.
Qed.

Lemma add_staffline_new (dom : Dom) (buckets : list Bucket) (g : Element) :
  (forall b, In b buckets -> 2 <= Z.abs (bucket_y b - rounded_top dom g)) ->
  add_staffline dom buckets g = buckets ++ [new_bucket dom g].
Proof.
  intros H. unfold add_staffline. apply find_bucket_None in H. now rewrite H.
Qed.

Lemma ForallOrdPairs_snoc {A : Type} (R : A -> A -> Prop) (l : list A) (x : A) :
  ForallOrdPairs R l -> Forall (fun a => R a x) l -> ForallOrdPairs R (l ++ [x]).
Proof.
  induction 1 as [| a l Ha Hl IH]; intros Hx; simpl.
  - constructor; constructor.
  - inversion Hx; subst. constructor; [| now apply IH].
    apply Forall_app. split; [exact Ha | now constructor].
Qed.

Lemma add_staffline_inv (dom : Dom) (scanned : list Element) (buckets : list Bucket)
      (g : Element) :
  buckets_inv dom scanned buckets ->
  buckets_inv dom (scanned ++ [g]) (add_staffline dom buckets g).
Proof.
  intros [Hrepr Hapart Hcover]. unfold add_staffline.
  destruct (find_bucket buckets (rounded_top dom g)) as [b |] eqn:E.
  - apply find_bucket_Some in E. constructor.
    + intros b' Hb'. destruct (Hrepr b' Hb') as [H1 H2]. split; [exact H1 |].
      apply in_or_app. now left.
    + exact Hapart.
    + intros g' Hg'. apply in_app_or in Hg'. destruct Hg' as [Hg' | [-> | []]].
      * now apply Hcover.
      * now exists b.
  - rewrite find_bucket_None in E. constructor.
    + intros b' Hb'. apply in_app_or in Hb'. destruct Hb' as [Hb' | [<- | []]].
      * destruct (Hrepr b' Hb') as [H1 H2]. split; [exact H1 |].
        apply in_or_app. now left.
      * simpl. split; [reflexivity |]. apply in_or_app. right. now left.
    + apply ForallOrdPairs_snoc; [exact Hapart |].
      apply Forall_forall. intros a Ha. simpl. now apply E.
    + intros g' Hg'. apply in_app_or in Hg'. destruct Hg' as [Hg' | [-> | []]].
      * destruct (Hcover g' Hg') as [b [Hb Hlt]]. exists b. split; [| exact Hlt].
        apply in_or_app. now left.
      * exists {| bucket_y := rounded_top dom g'; bucket_el := g' |}. split.
        -- apply in_or_app. right. now left.
        -- simpl. rewrite Z.sub_diag. simpl. lia.
Qed.

Lemma fold_add_staffline_inv (dom : Dom) (gs : list Element) :
  forall scanned buckets,
    buckets_inv dom scanned buckets ->
    buckets_inv dom (scanned ++ gs) (fold_left (add_staffline dom) gs buckets).
Proof.
  induction gs as [| g gs IH]; intros scanned buckets Hinv; simpl.
  - now rewrite app_nil_r.
  - replace (scanned ++ g :: gs) with ((scanned ++ [g]) ++ gs)
      by (now rewrite <- app_assoc).
    apply IH. now apply add_staffline_inv.
Qed.

Lemma bucketize_inv (dom : Dom) (gs : list Element) :
  buckets_inv dom gs (bucketize dom gs).
Proof.
  unfold bucketize. apply (fold_add_staffline_inv dom gs [] []).
  constructor; [intros b [] | constructor | intros g []].
Qed.

(** ** Gaps and anchors, on the bucket coordinates *)

Lemma deltas_of_numbers (buckets : list Bucket) :
  deltas_of buckets = deltas_numbers (map bucket_y buckets).
Proof.
  induction buckets as [| b0 [| b1 rest] IH]; simpl; try reflexivity.
  f_equal. exact IH.
Qed.

Lemma GAP_of_numbers (buckets : list Bucket) :
  GAP_of buckets = GAP_numbers (map bucket_y buckets).
Proof. unfold GAP_of, GAP_numbers, sort_numbers. now rewrite deltas_of_numbers. Qed.

Lemma pick_rows_numbers (dom : Dom) (GAP : Z) (buckets : list Bucket) :
  (forall b, In b buckets -> bucket_y b = rounded_top dom (bucket_el b)) ->
  forall prev,
    map (rounded_top dom) (pick_rows GAP prev buckets)
    = pick_numbers GAP (option_map bucket_y prev) (map bucket_y buckets).
Proof.
  induction buckets as [| b rest IH]; intros Hrepr prev; simpl; [reflexivity |].
  assert (Hb : bucket_y b = rounded_top dom (bucket_el b)) by (apply Hrepr; now left).
  assert (Hrest : forall b', In b' rest -> bucket_y b' = rounded_top dom (bucket_el b'))
    by (intros b' Hb'; apply Hrepr; now right).
  specialize (IH Hrest (Some b)). simpl in IH.
  destruct prev as [p |]; simpl.
  - destruct (GAP <? bucket_y b - bucket_y p); simpl; rewrite IH; congruence.
  - rewrite IH. congruence.
Qed.

Lemma pick_rows_incl (GAP : Z) (buckets : list Bucket) :
  forall prev e, In e (pick_rows GAP prev buckets) ->
                 exists b, In b buckets /\ bucket_el b = e.
Proof.
  induction buckets as [| b rest IH]; intros prev e; simpl; [intros [] |].
  intros Hin.
  assert (Hcases : e = bucket_el b \/ In e (pick_rows GAP (Some b) rest)).
  { destruct prev as [p |]; [destruct (GAP <? bucket_y b - bucket_y p) |];
      simpl in Hin; intuition. }
  destruct Hcases as [-> | Hrest].
  - exists b. split; [now left | reflexivity].
  - destruct (IH _ _ Hrest) as [b' [Hb' He]]. exists b'. split; [now right | exact He].
Qed.

Lemma pick_numbers_first (GAP : Z) (y : Z) (ys : list Z) :
  pick_numbers GAP None (y :: ys) = y :: pick_numbers GAP (Some y) ys.
Proof. reflexivity. Qed.

(** Anchors picked from sorted coordinates lie more than [GAP] apart, and
    more than [GAP] after the bucket that precedes them. *)
Lemma pick_numbers_spaced (GAP : Z) (ys : list Z) :
  forall p,
    StronglySorted Z.le (p :: ys) ->
    StronglySorted (fun a b => a + GAP < b) (pick_numbers GAP (Some p) ys) /\
    Forall (fun a => p + GAP < a) (pick_numbers GAP (Some p) ys).
Proof.
  induction ys as [| y rest IH]; intros p Hs; simpl.
  - split; constructor.
  - inversion Hs as [| ? ? Hs' Hall]; subst.
    inversion Hall as [| ? ? Hpy Hprest]; subst.
    destruct (IH y Hs') as [IHs IHa].
    assert (Hmono : forall q, q <= y ->
              Forall (fun a => q + GAP < a) (pick_numbers GAP (Some y) rest)).
    { intros q Hq. eapply Forall_impl; [| exact IHa]. simpl; intros; lia. }
    destruct (Z.ltb_spec GAP (y - p)) as [Hjump | Hnear].
    + split.
      * constructor; [exact IHs | exact IHa].
      * constructor; [lia | now apply Hmono].
    + split; [exact IHs | now apply Hmono].
Qed.

Lemma pick_numbers_None_spaced (GAP : Z) (ys : list Z) :
  StronglySorted Z.le ys ->
  StronglySorted (fun a b => a + GAP < b) (pick_numbers GAP None ys).
Proof.
  destruct ys as [| y rest]; intros Hs; [constructor |].
  rewrite pick_numbers_first.
  destruct (pick_numbers_spaced GAP rest y Hs) as [H1 H2].
  now constructor.
Qed.

Lemma gap_of_median_floor (m : Z) : 40 <= gap_of_median m.
Proof. unfold gap_of_median. lia. Qed.

Lemma sort_buckets_ys (dom : Dom) (gs : list Element) :
  map bucket_y (sort_buckets (bucketize dom gs)) = sorted_ys dom gs.
Proof. unfold sort_buckets, sorted_ys. apply map_array_sort_key. Qed.

Lemma sort_buckets_repr (dom : Dom) (gs : list Element) (b : Bucket) :
  In b (sort_buckets (bucketize dom gs)) ->
  bucket_y b = rounded_top dom (bucket_el b) /\ In (bucket_el b) gs.
Proof.
  intros Hin. apply (inv_repr _ _ _ (bucketize_inv dom gs)).
  eapply Permutation_in; [apply array_sort_perm | exact Hin].
Qed.

(** The rounded tops of the anchors, from the sorted bucket coordinates. *)
Lemma extract_rows_ys (dom : Dom) (gs : list Element) :
  map (rounded_top dom) (extract_rows dom gs)
  = pick_numbers (GAP_numbers (sorted_ys dom gs)) None (sorted_ys dom gs).
Proof.
  unfold extract_rows.
  rewrite (pick_rows_numbers dom)
    by (intros b Hb; now destruct (sort_buckets_repr dom gs b Hb)).
  simpl. now rewrite GAP_of_numbers, sort_buckets_ys.
Qed.

Lemma extract_rows_incl (dom : Dom) (gs : list Element) :
  incl (extract_rows dom gs) gs.
Proof.
  intros e He. unfold extract_rows in He.
  destruct (pick_rows_incl _ _ _ _ He) as [b [Hb <-]].
  now destruct (sort_buckets_repr dom gs b Hb).
Qed.

(** Consecutive anchors are more than 40 px apart in rounded tops. *)
Lemma extract_rows_spaced (dom : Dom) (gs : list Element) :
  StronglySorted (fun a b => a + 40 < b) (map (rounded_top dom) (extract_rows dom gs)).
Proof.
  rewrite extract_rows_ys.
  pose proof (pick_numbers_None_spaced (GAP_numbers (sorted_ys dom gs)) (sorted_ys dom gs)
                (sort_numbers_sorted _)) as H.
  pose proof (gap_of_median_floor
                (median_of (sort_numbers (deltas_numbers (sorted_ys dom gs))))) as Hfloor.
  fold (GAP_numbers (sorted_ys dom gs)) in Hfloor.
  revert H. generalize (pick_numbers (GAP_numbers (sorted_ys dom gs)) None (sorted_ys dom gs)).
  intros l H. induction H as [| a l Hl IH Ha]; constructor; [exact IH |].
  eapply Forall_impl; [| exact Ha]. simpl; intros; lia.
Qed.

(** ** Round trip between [scrollToIdx] and [syncIdxToScroll] *)

Lemma same_layout_refl (dom : Dom) : same_layout dom dom.
Proof. intros e. apply Qeq_refl. Qed.

Lemma surface_same_layout (ys : list Z) (s s' : Z) :
  same_layout (surface ys s) (surface ys s').
Proof.
  intros e. unfold content_y, surface; simpl.
  unfold Z.sub. rewrite !inject_Z_plus, !inject_Z_opp. ring.
Qed.

Lemma Math_round_bounds (x : Q) :
  (inject_Z (Math_round x) <= x + (1 # 2) /\ x + (1 # 2) < inject_Z (Math_round x) + 1)%Q.
Proof.
  unfold Math_round. split.
  - apply Qfloor_le.
  - pose proof (Qlt_floor (x + (1 # 2))) as H.
    rewrite inject_Z_plus in H. exact H.
Qed.

Lemma rounded_gap_content (dom : Dom) (a b : Element) :
  rounded_top dom a + 40 < rounded_top dom b ->
  (content_y dom a + 40 < content_y dom b)%Q.
Proof.
  unfold rounded_top, content_y. intros H.
  destruct (Math_round_bounds (rect_top dom a)) as [_ Ha].
  destruct (Math_round_bounds (rect_top dom b)) as [Hb _].
  assert (Hz : (inject_Z (Math_round (rect_top dom a)) + 41
                <= inject_Z (Math_round (rect_top dom b)))%Q).
  { rewrite <- (inject_Z_plus _ 41). rewrite <- Zle_Qle. lia. }
  lra.
Qed.

Lemma StronglySorted_nth_error {A : Type} (R : A -> A -> Prop) (l : list A) :
  StronglySorted R l ->
  forall j k a b, (j < k)%nat -> nth_error l j = Some a -> nth_error l k = Some b -> R a b.
Proof.
  induction 1 as [| x l Hl IH Hx]; intros j k a b Hjk Ha Hb.
  - destruct j; discriminate.
  - destruct k as [| k]; [lia |]. simpl in Hb.
    destruct j as [| j]; simpl in Ha.
    + inversion Ha; subst. rewrite Forall_forall in Hx. apply Hx.
      eapply nth_error_In; exact Hb.
    + apply (IH j k); [lia | exact Ha | exact Hb].
Qed.

Lemma prefix_len_exact {A : Type} (f : A -> bool) (l : list A) :
  forall p,
    (p <= length l)%nat ->
    (forall j x, (j < p)%nat -> nth_error l j = Some x -> f x = true) ->
    (forall x, nth_error l p = Some x -> f x = false) ->
    prefix_len f l = p.
Proof.
  induction l as [| h t IH]; intros p Hp Hin Hstop; simpl in *.
  - lia.
  - destruct p as [| p].
    + now rewrite (Hstop h eq_refl).
    + rewrite (Hin O h) by (simpl; (lia || reflexivity)).
      f_equal. apply IH; [lia | |].
      * intros j x Hj Hx. apply (Hin (S j) x); [lia | exact Hx].
      * intros x Hx. now apply Hstop.
Qed.

(** The anchors of an extraction are more than 40 px apart in the content of
    the card, in every snapshot of the same layout. *)
Lemma extract_rows_content_spaced (dom dom' : Dom) (gs : list Element) :
  same_layout dom dom' ->
  StronglySorted (fun a b => (content_y dom' a + 40 < content_y dom' b)%Q)
                 (extract_rows dom gs).
Proof.
  intros Hsame. pose proof (extract_rows_spaced dom gs) as H.
  induction (extract_rows dom gs) as [| a l IH]; [constructor |].
  simpl in H. inversion H as [| ? ? Hl Ha]; subst.
  constructor; [now apply IH |].
  rewrite Forall_map in Ha. eapply Forall_impl; [| exact Ha].
  simpl. intros b Hab. apply rounded_gap_content in Hab.
  rewrite <- (Hsame a), <- (Hsame b). exact Hab.
Qed.

(** Once the card has settled with anchor [i] at its top, the scan stops
    right after anchor [i]. *)
Lemma synced_index_settled (dom : Dom) (rows : list Element) (i : nat) (e : Element) :
  StronglySorted (fun a b => (content_y dom a + 40 < content_y dom b)%Q) rows ->
  nth_error rows i = Some e ->
  (card_scrollTop dom == content_y dom e)%Q ->
  synced_index dom rows = Z.of_nat i.
Proof.
  intros Hs He Hsettled. unfold synced_index.
  assert (Hi : (i < length rows)%nat) by (apply nth_error_Some; congruence).
  rewrite (prefix_len_exact (at_or_above dom) rows (S i)); [reflexivity | lia | |].
  - intros j x Hj Hx. apply at_or_above_iff.
    destruct (Nat.eq_dec j i) as [-> | Hne].
    + assert (x = e) by congruence. subst x. lra.
    + pose proof (StronglySorted_nth_error _ _ Hs j i x e) as H.
      simpl in H. specialize (H ltac:(lia) Hx He). lra.
  - intros x Hx. destruct (at_or_above dom x) eqn:Hq; [| reflexivity].
    apply at_or_above_iff in Hq.
    pose proof (StronglySorted_nth_error _ _ Hs i (S i) e x) as H.
    simpl in H. specialize (H ltac:(lia) He Hx). lra.
Qed.

Lemma captureRows_rows (dom : Dom) (st st' : State) :
  captureRows dom st = Ok st' ->
  rowsRef st' = match svg_stafflines dom with
                | None => []
                | Some gs => extract_rows dom gs
                end.
Proof.
  rewrite captureRows_eq. intros H. inversion H; subst.
  destruct (svg_stafflines dom) as [gs |]; [| reflexivity].
  destruct (extract_rows dom gs); reflexivity.
Qed.

(** C2.  Take the anchors of an extraction and any valid index [i].
    [scrollToIdx i] completes, sets the index to [i] and asks the card to
    scroll to anchor [i]'s offset; in any later snapshot of the same layout
    where the card's scroll offset has settled at that target,
    [syncIdxToScroll] completes with index [i] again (whatever the index was
    set to by scroll events in between).  For an arbitrary [i] the same holds
    of the clamped index. *)
Theorem goto_sync_roundtrip (dom0 dom1 : Dom) (st0 st1 : State) (i : Z) :
  captureRows dom0 st0 = Ok st1 ->
  same_layout dom0 dom1 ->
  rowsRef st1 <> [] ->
  exists st2 target,
    scrollToIdx dom1 i st1 = Ok st2 /\
    idxRef st2 = clamp_index i (array_length (rowsRef st1)) /\
    (0 <= i < array_length (rowsRef st1) -> idxRef st2 = i) /\
    scrollTo_log st2 = target :: scrollTo_log st1 /\
    forall dom2 st,
      same_layout dom0 dom2 ->
      (card_scrollTop dom2 == target)%Q ->
      rowsRef st = rowsRef st2 ->
      exists st3, syncIdxToScroll dom2 st = Ok st3 /\ idxRef st3 = idxRef st2.
Proof.
  intros Hcap Hsame1 Hne.
  destruct (scrollToIdx_eq dom1 i st1 Hne) as [e [He Heq]].
  set (c := clamp_index i (array_length (rowsRef st1))) in *.
  exists (card_scrollTo (content_y dom1 e) (set_idx c st1)), (content_y dom1 e).
  split; [exact Heq |]. simpl. split; [reflexivity |].
  split; [intros Hi; apply clamp_index_valid; lia |].
  split; [reflexivity |].
  intros dom2 st Hsame2 Hsettled Hrows.
  rewrite syncIdxToScroll_eq, Hrows.
  destruct (rowsRef st1) as [| r rows] eqn:Erows; [congruence |].
  eexists; split; [reflexivity |]. simpl.
  pose proof (captureRows_rows _ _ _ Hcap) as Hext. rewrite Erows in Hext.
  destruct (svg_stafflines dom0) as [gs |]; [| discriminate].
  pose proof (extract_rows_content_spaced dom0 dom2 gs Hsame2) as Hsp.
  rewrite <- Hext in Hsp.
  pose proof (array_get_Some_range _ _ _ He) as Hc.
  assert (Hnth : nth_error (r :: rows) (Z.to_nat c) = Some e).
  { rewrite <- (array_get_of_nat (r :: rows)). rewrite Z2Nat.id by lia. exact He. }
  rewrite (synced_index_settled dom2 (r :: rows) (Z.to_nat c) e Hsp Hnth).
  - lia.
  - rewrite Hsettled. rewrite <- (Hsame1 e), <- (Hsame2 e). apply Qeq_refl.
Qed.

(** The sample surface: go to row 1, let the card settle at 100 px, sync. *)
Lemma goto_sync_roundtrip_witness :
  exists st1 st2 st3,
    captureRows (surface example_ys 0) initial_state = Ok st1 /\
    scrollToIdx (surface example_ys 0) 1 st1 = Ok st2 /\
    syncIdxToScroll (surface example_ys 100) st2 = Ok st3 /\
    idxRef st3 = 1.
Proof.
  pose (st1 := {| rowsRef := [0%nat; 4%nat; 8%nat]; idxRef := 0; scrollTo_log := [] |}).
  assert (Hcap : captureRows (surface example_ys 0) initial_state = Ok st1)
    by (vm_compute; reflexivity).
  destruct (goto_sync_roundtrip (surface example_ys 0) (surface example_ys 0)
              initial_state st1 1 Hcap (same_layout_refl _))
    as [st2 [target [Hgo [Hidx [_ [Hlog Hsync]]]]]]; [discriminate |].
  pose (st2' := {| rowsRef := [0%nat; 4%nat; 8%nat]; idxRef := 1;
                   scrollTo_log := [100 # 1] |}).
  assert (E : Ok st2 = Ok st2') by (rewrite <- Hgo; vm_compute; reflexivity).
  inversion E; subst st2. simpl in Hlog. inversion Hlog; subst target.
  destruct (Hsync (surface example_ys 100) st2' (surface_same_layout _ _ _)
              ltac:(reflexivity) eq_refl) as [st3 [Hs Hi]].
  exists st1, st2', st3. repeat split; assumption.
Defined.

(** ** Synthetic scores *)

Lemma deltas_numbers_lines (d : Z) (m : nat) :
  forall p rest,
    deltas_numbers (p :: line_ys m d (p + d) ++ rest)
    = repeat d m ++ deltas_numbers ((p + Z.of_nat m * d) :: rest).
Proof.
  induction m as [| m IH]; intros p rest.
  - simpl line_ys. simpl repeat. simpl app. now rewrite Z.add_0_r.
  - change (line_ys (S m) d (p + d)) with ((p + d) :: line_ys m d (p + d + d)).
    change (deltas_numbers (p :: ((p + d) :: line_ys m d (p + d + d)) ++ rest))
      with ((p + d - p) :: deltas_numbers ((p + d) :: line_ys m d (p + d + d) ++ rest)).
    rewrite IH. simpl repeat. simpl app.
    replace (p + d - p) with d by lia.
    replace (p + d + Z.of_nat m * d) with (p + Z.of_nat (S m) * d) by lia.
    reflexivity.
Qed.

Lemma synthetic_ys_cons (m : nat) (d s : Z) (starts : list Z) :
  synthetic_ys (S m) d (s :: starts)
  = s :: line_ys m d (s + d) ++ synthetic_ys (S m) d starts.
Proof. reflexivity. Qed.

Lemma deltas_numbers_synthetic (m : nat) (d s : Z) (starts : list Z) :
  deltas_numbers (synthetic_ys (S m) d (s :: starts))
  = repeat d m ++
    match starts with
    | [] => []
    | s' :: _ => (s' - (s + Z.of_nat m * d)) :: deltas_numbers (synthetic_ys (S m) d starts)
    end.
Proof.
  rewrite synthetic_ys_cons, deltas_numbers_lines. f_equal.
  destruct starts as [| s' tl]; [reflexivity |].
  rewrite synthetic_ys_cons. reflexivity.
Qed.

Lemma system_gaps_cons (m : nat) (d s s' : Z) (tl : list Z) :
  system_gaps (S m) d (s :: s' :: tl)
  = (s' - (s + Z.of_nat m * d)) :: system_gaps (S m) d (s' :: tl).
Proof.
  cbn [system_gaps].
  replace (Z.of_nat (S m) - 1) with (Z.of_nat m) by lia. reflexivity.
Qed.

Lemma deltas_synthetic_perm (m : nat) (d : Z) (starts : list Z) :
  Permutation (deltas_numbers (synthetic_ys (S m) d starts))
              (repeat d (length starts * m) ++ system_gaps (S m) d starts).
Proof.
  induction starts as [| s starts IH]; [constructor |].
  rewrite deltas_numbers_synthetic.
  change (length (s :: starts) * m)%nat with (m + length starts * m)%nat.
  rewrite repeat_app, <- app_assoc. apply Permutation_app_head.
  destruct starts as [| s' tl].
  - simpl. constructor.
  - rewrite system_gaps_cons.
    eapply perm_trans; [apply perm_skip, IH |].
    apply Permutation_middle.
Qed.

Lemma StronglySorted_repeat_app (d : Z) (m : nat) (l : list Z) :
  StronglySorted Z.le l -> Forall (fun g => d <= g) l ->
  StronglySorted Z.le (repeat d m ++ l).
Proof.
  intros Hs Hall. induction m as [| m IH]; simpl; [exact Hs |].
  constructor; [exact IH |].
  apply Forall_app. split; [| exact Hall].
  apply Forall_forall. intros x Hx. apply repeat_spec in Hx. lia.
Qed.

Lemma median_of_repeat_app (d : Z) (m : nat) (l : list Z) :
  (1 <= m)%nat -> (length l <= m)%nat -> median_of (repeat d m ++ l) = d.
Proof.
  intros Hm Hl. unfold median_of, array_length.
  rewrite length_app, repeat_length.
  destruct (Z.eqb_spec (Z.of_nat (m + length l)) 0) as [E | _]; [lia |].
  rewrite Z.shiftr_div_pow2 by lia. change (2 ^ 1) with 2.
  assert (Hidx : (Z.to_nat ((Z.of_nat (m + length l) - 1) / 2) < m)%nat).
  { apply Nat2Z.inj_lt. rewrite Z2Nat.id by (apply Z.div_pos; lia).
    apply Z.div_lt_upper_bound; lia. }
  rewrite app_nth1 by (now rewrite repeat_length).
  now apply nth_repeat_lt.
Qed.

Lemma system_gaps_length (n : nat) (d : Z) (starts : list Z) :
  length (system_gaps n d starts) = Nat.pred (length starts).
Proof.
  induction starts as [| s [| s' tl] IH]; try reflexivity.
  change (length (system_gaps n d (s :: s' :: tl)))
    with (S (length (system_gaps n d (s' :: tl)))).
  rewrite IH. reflexivity.
Qed.

(** With at least two lines per system and every system gap no smaller
    than the line spacing, the median gap is the line spacing. *)
Lemma GAP_numbers_synthetic (m : nat) (d : Z) (starts : list Z) :
  (1 <= m)%nat -> starts <> [] ->
  Forall (fun g => d <= g) (system_gaps (S m) d starts) ->
  GAP_numbers (synthetic_ys (S m) d starts) = gap_of_median d.
Proof.
  intros Hm Hne Hg. unfold GAP_numbers. f_equal.
  rewrite (sort_numbers_unique _
             (repeat d (length starts * m) ++ sort_numbers (system_gaps (S m) d starts))).
  - apply median_of_repeat_app.
    + destruct starts; [congruence | simpl; lia].
    + rewrite (Permutation_length (sort_numbers_perm _)), system_gaps_length.
      destruct starts; [congruence | simpl; nia].
  - apply StronglySorted_repeat_app; [apply sort_numbers_sorted |].
    eapply Permutation_Forall; [apply Permutation_sym, sort_numbers_perm | exact Hg].
  - eapply perm_trans; [apply deltas_synthetic_perm |].
    apply Permutation_app_head, Permutation_sym, sort_numbers_perm.
Qed.

(** [Math.round(median * 2.2)] in integer arithmetic. *)
Lemma Math_round_times_2_2 (m : Z) :
  Math_round (inject_Z m * (22 # 10)) = (22 * m + 5) / 10.
Proof.
  unfold Math_round, Qfloor, Qplus, Qmult, inject_Z. simpl.
  replace (m * 22 * 2 + 10) with ((22 * m + 5) * 2) by lia.
  change 20 with (10 * 2). apply Z.div_mul_cancel_r; lia.
Qed.

Lemma gap_of_median_eq (m : Z) : gap_of_median m = Z.max 40 ((22 * m + 5) / 10).
Proof. unfold gap_of_median. now rewrite Math_round_times_2_2. Qed.

Lemma gap_of_median_ge (d : Z) : 0 <= d -> d <= gap_of_median d.
Proof.
  intros Hd. rewrite gap_of_median_eq.
  assert (d <= (22 * d + 5) / 10) by (apply Z.div_le_lower_bound; lia).
  lia.
Qed.

(** The floor of 40 is what [GAP] is exactly when the median is at most 18. *)
Lemma gap_of_median_40_iff (m : Z) : gap_of_median m = 40 <-> m <= 18.
Proof.
  rewrite gap_of_median_eq. split; intros H.
  - destruct (Z.le_gt_cases m 18) as [Hle | Hgt]; [exact Hle | exfalso].
    assert (41 <= (22 * m + 5) / 10) by (apply Z.div_le_lower_bound; lia).
    lia.
  - assert ((22 * m + 5) / 10 < 41) by (apply Z.div_lt_upper_bound; lia).
    lia.
Qed.

Lemma pick_numbers_lines (GAP d : Z) (m : nat) :
  d <= GAP ->
  forall p rest,
    pick_numbers GAP (Some p) (line_ys m d (p + d) ++ rest)
    = pick_numbers GAP (Some (p + Z.of_nat m * d)) rest.
Proof.
  intros Hd. induction m as [| m IH]; intros p rest.
  - simpl. now rewrite Z.add_0_r.
  - cbn [line_ys app pick_numbers].
    destruct (Z.ltb_spec GAP (p + d - p)) as [Hlt | _]; [lia |].
    rewrite IH.
    replace (p + d + Z.of_nat m * d) with (p + Z.of_nat (S m) * d) by lia.
    reflexivity.
Qed.

(** Walking a synthetic score picks exactly the first line of every system. *)
Lemma pick_numbers_synthetic (GAP d : Z) (m : nat) :
  (m = O \/ d <= GAP) ->
  forall starts prev,
    Forall (fun g => GAP < g) (system_gaps (S m) d starts) ->
    match prev, starts with
    | Some p, s :: _ => GAP < s - p
    | _, _ => True
    end ->
    pick_numbers GAP prev (synthetic_ys (S m) d starts) = starts.
Proof.
  intros Hd. induction starts as [| s starts IH]; intros prev Hg Hprev; [reflexivity |].
  rewrite synthetic_ys_cons.
  assert (Hwalk : pick_numbers GAP (Some s)
                    (line_ys m d (s + d) ++ synthetic_ys (S m) d starts)
                  = pick_numbers GAP (Some (s + Z.of_nat m * d))
                      (synthetic_ys (S m) d starts)).
  { destruct Hd as [-> | Hd]; [simpl; now rewrite Z.add_0_r |].
    now apply pick_numbers_lines. }
  assert (Hrest : pick_numbers GAP (Some (s + Z.of_nat m * d))
                    (synthetic_ys (S m) d starts) = starts).
  { apply IH.
    - destruct starts as [| s' tl]; [constructor |].
      rewrite system_gaps_cons in Hg. now inversion Hg.
    - destruct starts as [| s' tl]; [exact I |].
      rewrite system_gaps_cons in Hg. now inversion Hg. }
  cbn [pick_numbers].
  destruct prev as [p |].
  - apply Z.ltb_lt in Hprev. rewrite Hprev, Hwalk, Hrest. reflexivity.
  - rewrite Hwalk, Hrest. reflexivity.
Qed.

(** Coordinates whose consecutive differences are all at least 2. *)
Lemma deltas_ge_2_spaced (l : list Z) :
  Forall (fun g => 2 <= g) (deltas_numbers l) ->
  StronglySorted (fun a b => a + 2 <= b) l.
Proof.
  induction l as [| a [| b t] IH]; intros H.
  - constructor.
  - constructor; constructor.
  - change (deltas_numbers (a :: b :: t)) with ((b - a) :: deltas_numbers (b :: t)) in H.
    inversion H as [| ? ? Hab Hrest]; subst.
    specialize (IH Hrest). constructor; [exact IH |].
    inversion IH as [| ? ? _ Hb]; subst.
    constructor; [lia |]. eapply Forall_impl; [| exact Hb]. simpl; intros; lia.
Qed.

Lemma synthetic_ys_spaced (m : nat) (d : Z) (starts : list Z) :
  2 <= d -> Forall (fun g => 2 <= g) (system_gaps (S m) d starts) ->
  StronglySorted (fun a b => a + 2 <= b) (synthetic_ys (S m) d starts).
Proof.
  intros Hd Hg. apply deltas_ge_2_spaced.
  eapply Permutation_Forall; [apply Permutation_sym, deltas_synthetic_perm |].
  apply Forall_app. split; [| exact Hg].
  apply Forall_forall. intros x Hx. apply repeat_spec in Hx. lia.
Qed.

(** ** Extraction on well-spaced stafflines *)

Lemma ForallOrdPairs_perm {A : Type} (R : A -> A -> Prop) :
  (forall a b, R a b -> R b a) ->
  forall l l', Permutation l l' -> ForallOrdPairs R l -> ForallOrdPairs R l'.
Proof.
  intros Hsym l l' Hp. induction Hp as [| x l l' Hp IH | x y l | l l' l'' _ IH1 _ IH2];
    intros H.
  - exact H.
  - inversion H; subst. constructor; [| now apply IH].
    eapply Permutation_Forall; eassumption.
  - inversion H as [| ? ? Hy Hxl]; subst. inversion Hxl as [| ? ? Hx Hl]; subst.
    inversion Hy as [| ? ? Hyx Hyl]; subst.
    constructor; [| constructor; assumption].
    constructor; [now apply Hsym | exact Hx].
  - now apply IH2, IH1.
Qed.

Lemma ForallOrdPairs_map {A B : Type} (f : A -> B) (R : B -> B -> Prop) (l : list A) :
  ForallOrdPairs R (map f l) -> ForallOrdPairs (fun a b => R (f a) (f b)) l.
Proof.
  induction l as [| a l IH]; simpl; intros H; [constructor |].
  inversion H as [| ? ? Ha Hl]; subst. constructor; [| now apply IH].
  now rewrite Forall_map in Ha.
Qed.

Lemma spaced_apart (l : list Z) :
  StronglySorted (fun a b => a + 2 <= b) l -> ForallOrdPairs apart l.
Proof.
  induction 1 as [| a l Hl IH Ha]; constructor; [| exact IH].
  eapply Forall_impl; [| exact Ha]. unfold apart. simpl; intros; lia.
Qed.

(** Stafflines whose rounded tops are pairwise apart get a bucket each. *)
Lemma fold_add_staffline_all_new (dom : Dom) (gs : list Element) :
  forall acc,
    (forall b g, In b acc -> In g gs -> apart (bucket_y b) (rounded_top dom g)) ->
    ForallOrdPairs (fun g g' => apart (rounded_top dom g) (rounded_top dom g')) gs ->
    fold_left (add_staffline dom) gs acc = acc ++ map (new_bucket dom) gs.
Proof.
  induction gs as [| g gs IH]; intros acc Hacc Hgs; simpl.
  - now rewrite app_nil_r.
  - inversion Hgs as [| ? ? Hg Hrest]; subst.
    rewrite add_staffline_new by (intros b Hb; apply Hacc; [exact Hb | now left]).
    rewrite IH; [now rewrite <- app_assoc | | exact Hrest].
    intros b g' Hb Hg'. apply in_app_or in Hb. destruct Hb as [Hb | [<- | []]].
    + apply Hacc; [exact Hb | now right].
    + simpl. rewrite Forall_forall in Hg. now apply Hg.
Qed.

Lemma bucketize_all_new (dom : Dom) (gs : list Element) :
  ForallOrdPairs (fun g g' => apart (rounded_top dom g) (rounded_top dom g')) gs ->
  bucketize dom gs = map (new_bucket dom) gs.
Proof.
  intros H. unfold bucketize.
  rewrite fold_add_staffline_all_new; [reflexivity | | exact H].
  intros b g [].
Qed.

(** When the rounded tops of the stafflines are, in some order, coordinates
    that ascend in steps of at least 2, the sorted buckets have exactly
    these coordinates. *)
Lemma sorted_ys_of_spaced (dom : Dom) (gs : list Element) (ys : list Z) :
  StronglySorted (fun a b => a + 2 <= b) ys ->
  Permutation (map (rounded_top dom) gs) ys ->
  sorted_ys dom gs = ys.
Proof.
  intros Hs Hp. unfold sorted_ys.
  rewrite bucketize_all_new.
  - rewrite map_map. simpl. apply sort_numbers_unique; [| exact Hp].
    clear Hp. induction Hs as [| a l Hl IH Ha]; constructor; [exact IH |].
    eapply Forall_impl; [| exact Ha]. simpl; intros; lia.
  - apply ForallOrdPairs_map.
    apply (ForallOrdPairs_perm apart) with (l := ys).
    + unfold apart. intros a b H. lia.
    + now apply Permutation_sym.
    + now apply spaced_apart.
Qed.

(** Extraction on a synthetic score: the rounded tops of the anchors are the
    system starts, and the threshold is the one derived from [d] (or the
    floor when there is no gap at all). *)
Lemma extract_rows_synthetic (dom : Dom) (gs : list Element)
      (n : nat) (d : Z) (starts : list Z) :
  2 <= d ->
  ((2 <= n)%nat \/ (n = 1%nat /\ (length starts <= 1)%nat)) ->
  gaps_exceed_threshold n d starts ->
  Permutation (map (rounded_top dom) gs) (synthetic_ys n d starts) ->
  map (rounded_top dom) (extract_rows dom gs) = starts /\
  (starts <> [] ->
   GAP_numbers (sorted_ys dom gs) = if (2 <=? n)%nat then gap_of_median d else 40).
Proof.
  intros Hd Hn Hg Hp.
  destruct n as [| m]; [lia |].
  assert (Hfloor : 40 <= gap_of_median d) by apply gap_of_median_floor.
  assert (Hys : sorted_ys dom gs = synthetic_ys (S m) d starts).
  { apply sorted_ys_of_spaced; [| exact Hp].
    apply synthetic_ys_spaced; [exact Hd |].
    eapply Forall_impl; [| exact Hg]. simpl; intros; lia. }
  rewrite extract_rows_ys, Hys.
  assert (HGAP : starts <> [] ->
            GAP_numbers (synthetic_ys (S m) d starts)
            = if (2 <=? S m)%nat then gap_of_median d else 40).
  { intros Hne. destruct Hn as [Hn | [Hn Hk]].
    - destruct (Nat.leb_spec 2 (S m)) as [_ | Hlt]; [| lia].
      apply GAP_numbers_synthetic; [lia | exact Hne |].
      eapply Forall_impl; [| exact Hg]. simpl; intros.
      pose proof (gap_of_median_ge d). lia.
    - assert (m = O) by lia. subst m.
      destruct starts as [| s [| s' tl]]; [congruence | reflexivity | simpl in Hk; lia]. }
  split; [| exact HGAP].
  destruct starts as [| s tl]; [reflexivity |].
  rewrite HGAP by discriminate.
  destruct Hn as [Hn | [Hn Hk]].
  - destruct (Nat.leb_spec 2 (S m)) as [_ | Hlt]; [| lia].
    apply pick_numbers_synthetic; [| exact Hg | exact I].
    right. apply gap_of_median_ge. lia.
  - assert (m = O) by lia. subst m.
    destruct tl as [| s' tl]; [reflexivity | simpl in Hk; lia].
Qed.

Lemma StronglySorted_weaken {A : Type} (R R' : A -> A -> Prop) (l : list A) :
  (forall a b, R a b -> R' a b) -> StronglySorted R l -> StronglySorted R' l.
Proof.
  intros Himp. induction 1 as [| a l Hl IH Ha]; constructor; [exact IH |].
  eapply Forall_impl; [| exact Ha]. exact (Himp a).
Qed.

Lemma rounded_top_injective (dom : Dom) (gs : list Element) (g g' : Element) :
  ForallOrdPairs (fun a b => apart (rounded_top dom a) (rounded_top dom b)) gs ->
  In g gs -> In g' gs -> rounded_top dom g = rounded_top dom g' -> g = g'.
Proof.
  intros H Hg Hg' E.
  destruct (ForallOrdPairs_In H g g' Hg Hg') as [Heq | [Hap | Hap]];
    [exact Heq | |]; unfold apart in Hap; rewrite E in Hap; lia.
Qed.

(** C1 (as the code has it).  Let the rounded tops of the stafflines be, in
    any discovery order, [k] systems of [n >= 2] lines each (or a single
    system of one line), with line spacing [d >= 2] inside a system and every
    between-system spacing strictly above the threshold
    [max(40, round(2.2 * d))].  Then [captureRows] completes with exactly
    [k] anchors, in ascending order, anchor [j] being the first staff line of
    system [j]. *)
Theorem captureRows_synthetic (dom : Dom) (st : State) (gs : list Element)
        (n : nat) (d : Z) (starts : list Z) :
  svg_stafflines dom = Some gs ->
  2 <= d ->
  ((2 <= n)%nat \/ (n = 1%nat /\ (length starts <= 1)%nat)) ->
  gaps_exceed_threshold n d starts ->
  Permutation (map (rounded_top dom) gs) (synthetic_ys n d starts) ->
  exists st',
    captureRows dom st = Ok st' /\
    length (rowsRef st') = length starts /\
    map (rounded_top dom) (rowsRef st') = starts /\
    StronglySorted Z.lt (map (rounded_top dom) (rowsRef st')) /\
    (forall j s g, nth_error starts j = Some s -> In g gs -> rounded_top dom g = s ->
                   nth_error (rowsRef st') j = Some g).
Proof.
  intros Hsvg Hd Hn Hg Hp.
  destruct (captureRows_index_ok dom st) as [st' [Hcap _]].
  exists st'. split; [exact Hcap |].
  pose proof (captureRows_rows _ _ _ Hcap) as Hrows. rewrite Hsvg in Hrows.
  destruct (extract_rows_synthetic dom gs n d starts Hd Hn Hg Hp) as [Hys _].
  rewrite Hrows.
  split; [rewrite <- (length_map (rounded_top dom)); now rewrite Hys |].
  split; [exact Hys |].
  split.
  - apply (StronglySorted_weaken (fun a b => a + 40 < b));
      [intros; lia | apply extract_rows_spaced].
  - intros j s g Hj Hin Hs.
    assert (Hjr : nth_error (map (rounded_top dom) (extract_rows dom gs)) j = Some s)
      by (now rewrite Hys).
    rewrite nth_error_map in Hjr.
    destruct (nth_error (extract_rows dom gs) j) as [e |] eqn:He; [| discriminate].
    simpl in Hjr. inversion Hjr as [Hes]. f_equal.
    apply (rounded_top_injective dom gs).
    + apply ForallOrdPairs_map.
      apply (ForallOrdPairs_perm apart) with (l := synthetic_ys n d starts).
      * unfold apart. intros a b H. lia.
      * now apply Permutation_sym.
      * apply spaced_apart. destruct n as [| m]; [lia |].
        apply synthetic_ys_spaced; [exact Hd |].
        pose proof (gap_of_median_floor d).
        eapply Forall_impl; [| exact Hg]. simpl; intros; lia.
    + apply (extract_rows_incl dom gs). eapply nth_error_In; exact He.
    + exact Hin.
    + congruence.
Qed.

(** The example scenario: three systems of four lines, spacing 10, system
    gap 70; the anchors are the stafflines at 0, 100 and 200. *)
Lemma captureRows_synthetic_witness :
  exists st',
    captureRows (surface example_ys 0) initial_state = Ok st' /\
    length (rowsRef st') = 3%nat /\
    map (rounded_top (surface example_ys 0)) (rowsRef st') = [0; 100; 200].
Proof.
  destruct (captureRows_synthetic (surface example_ys 0) initial_state (seq 0 12)
              4 10 [0; 100; 200]) as [st' [Hcap [Hlen [Hys _]]]].
  - reflexivity.
  - lia.
  - left. lia.
  - repeat constructor.
  - vm_compute. apply Permutation_refl.
  - exists st'. repeat split; assumption.
Defined.

(** Inputs that meet the clustering property as the specification words it
    (between-system spacing at least [2.2 * d]) and yet yield a single
    anchor for two systems: a system gap of 30 below the floor of 40; a
    system gap of exactly [2.2 * d]; one line per system; a line spacing of
    1 px, below the jitter tolerance. *)
Lemma clustering_counterexample :
  (synthetic_ys 2 10 [0; 40] = [0; 10; 40; 50] /\
   system_gaps 2 10 [0; 40] = [30] /\ ((22 # 10) * 10 <= 30)%Q /\
   extract_rows (surface [0; 10; 40; 50] 0) (seq 0 4) = [0%nat]) /\
  (synthetic_ys 2 50 [0; 160] = [0; 50; 160; 210] /\
   system_gaps 2 50 [0; 160] = [110] /\ ((22 # 10) * 50 <= 110)%Q /\
   extract_rows (surface [0; 50; 160; 210] 0) (seq 0 4) = [0%nat]) /\
  (synthetic_ys 1 10 [0; 100] = [0; 100] /\
   system_gaps 1 10 [0; 100] = [100] /\ ((22 # 10) * 10 <= 100)%Q /\
   extract_rows (surface [0; 100] 0) (seq 0 2) = [0%nat]) /\
  (synthetic_ys 2 1 [0; 100] = [0; 1; 100; 101] /\
   system_gaps 2 1 [0; 100] = [99] /\ ((22 # 10) * 1 <= 99)%Q /\
   extract_rows (surface [0; 1; 100; 101] 0) (seq 0 4) = [0%nat]).
Proof.
  repeat split; try reflexivity; try (vm_compute; discriminate).
Qed.

(** ** The separation threshold *)

Lemma deltas_numbers_adjacent (ys : list Z) : deltas_numbers ys = adjacent_gaps ys.
Proof.
  unfold adjacent_gaps. induction ys as [| a [| b t] IH]; try reflexivity.
  change (deltas_numbers (a :: b :: t)) with ((b - a) :: deltas_numbers (b :: t)).
  rewrite IH. reflexivity.
Qed.

Lemma median_index (k : nat) :
  Z.to_nat (Z.shiftr (Z.of_nat (S k) - 1) 1)
  = if Nat.even (S k) then (S k / 2 - 1)%nat else (S k / 2)%nat.
Proof.
  rewrite Z.shiftr_div_pow2 by lia. change (2 ^ 1) with 2.
  replace (Z.of_nat (S k) - 1) with (Z.of_nat k) by lia.
  change 2 with (Z.of_nat 2). rewrite <- Nat2Z.inj_div, Nat2Z.id.
  destruct (Nat.even (S k)) eqn:E.
  - apply Nat.even_spec in E. destruct E as [j Hj].
    replace (S k) with (j * 2)%nat by lia. rewrite Nat.div_mul by lia.
    replace k with (1 + (j - 1) * 2)%nat by lia.
    rewrite Nat.div_add by lia. simpl. lia.
  - assert (O : Nat.odd (S k) = true) by (rewrite <- Nat.negb_even, E; reflexivity).
    apply Nat.odd_spec in O. destruct O as [j Hj].
    replace (S k) with (1 + j * 2)%nat by lia. rewrite Nat.div_add by lia.
    replace k with (j * 2)%nat by lia. rewrite Nat.div_mul by lia. simpl. lia.
Qed.

Lemma median_of_lower_median (l : list Z) : median_of l = lower_median l.
Proof.
  unfold median_of, lower_median, array_length.
  destruct (length l) as [| k] eqn:E; [reflexivity |].
  destruct (Z.eqb_spec (Z.of_nat (S k)) 0) as [H | _]; [lia |].
  rewrite median_index. destruct (Nat.even (S k)); reflexivity.
Qed.

(** The index read from the sorted gaps is always inside the array. *)
Lemma median_index_in_range (l : list Z) :
  l <> [] -> (Z.to_nat (Z.shiftr (array_length l - 1) 1) < length l)%nat.
Proof.
  intros Hne. unfold array_length. destruct l as [| x t]; [congruence |].
  cbn [length]. rewrite Z.shiftr_div_pow2 by lia. change (2 ^ 1) with 2.
  apply Nat2Z.inj_lt. rewrite Z2Nat.id by (apply Z.div_pos; lia).
  apply Z.div_lt_upper_bound; lia.
Qed.

Lemma GAP_of_spec (buckets : list Bucket) :
  GAP_of buckets = spec_GAP (map bucket_y buckets).
Proof.
  rewrite GAP_of_numbers. unfold GAP_numbers, spec_GAP, gap_of_median.
  now rewrite median_of_lower_median, deltas_numbers_adjacent.
Qed.

(** C3 (as the code has it).  The threshold is
    [max(40, round(median * 2.2))], the median being the lower median of the
    sorted gaps between adjacent bucket coordinates and 0 without gaps.  It
    is exactly 40 when the median is at most 18, in particular when there is
    no gap at all (at most one bucket).  One system of [n] lines whose
    rounded tops are, in any discovery order, equally spaced by a whole
    number [d >= 2] of pixels always yields exactly one anchor, its first
    line; its threshold is 40 for a single line and
    [max(40, round(2.2 * d))] otherwise. *)
Theorem gap_threshold :
  (forall buckets, GAP_of buckets = spec_GAP (map bucket_y buckets)) /\
  (forall m, gap_of_median m = Z.max 40 ((22 * m + 5) / 10) /\
             (gap_of_median m = 40 <-> m <= 18)) /\
  (forall buckets, (length buckets <= 1)%nat ->
                   deltas_of buckets = [] /\ GAP_of buckets = 40) /\
  (forall dom gs st n d s,
     svg_stafflines dom = Some gs -> 2 <= d -> (1 <= n)%nat ->
     Permutation (map (rounded_top dom) gs) (line_ys n d s) ->
     GAP_of (sort_buckets (bucketize dom gs))
     = (if (2 <=? n)%nat then Z.max 40 ((22 * d + 5) / 10) else 40) /\
     exists st', captureRows dom st = Ok st' /\
                 length (rowsRef st') = 1%nat /\
                 map (rounded_top dom) (rowsRef st') = [s]).
Proof.
  split; [exact GAP_of_spec |].
  split; [intros m; split; [apply gap_of_median_eq | apply gap_of_median_40_iff] |].
  split.
  - intros buckets Hlen.
    assert (Hd : deltas_of buckets = [])
      by (destruct buckets as [| b [| b' t]]; [reflexivity | reflexivity | simpl in Hlen; lia]).
    split; [exact Hd |]. unfold GAP_of. rewrite Hd. reflexivity.
  - intros dom gs st n d s Hsvg Hd Hn Hp.
    destruct (extract_rows_synthetic dom gs n d [s]) as [Hys HGAP].
    + exact Hd.
    + destruct (Nat.le_gt_cases 2 n); [now left | right; simpl; lia].
    + constructor.
    + simpl. now rewrite app_nil_r.
    + split.
      * rewrite GAP_of_numbers, sort_buckets_ys, HGAP by discriminate.
        now rewrite gap_of_median_eq.
      * destruct (captureRows_index_ok dom st) as [st' [Hcap _]].
        exists st'. split; [exact Hcap |].
        pose proof (captureRows_rows _ _ _ Hcap) as Hrows. rewrite Hsvg in Hrows.
        rewrite Hrows. split; [| exact Hys].
        rewrite <- (length_map (rounded_top dom)). now rewrite Hys.
Qed.

(** One system of four lines 10 px apart: threshold 40, one anchor. *)
Lemma gap_threshold_witness :
  GAP_of (sort_buckets (bucketize (surface [0; 10; 20; 30] 0) (seq 0 4))) = 40 /\
  exists st', captureRows (surface [0; 10; 20; 30] 0) initial_state = Ok st' /\
              length (rowsRef st') = 1%nat.
Proof.
  destruct gap_threshold as [_ [_ [_ Hone]]].
  destruct (Hone (surface [0; 10; 20; 30] 0) (seq 0 4) initial_state 4%nat 10 0)
    as [HGAP [st' [Hcap [Hlen _]]]].
  - reflexivity.
  - lia.
  - lia.
  - vm_compute. apply Permutation_refl.
  - split; [rewrite HGAP; reflexivity | exists st'; now split].
Defined.

(** One system of two staff lines 20 px apart: there is no inter-system gap,
    yet the median is 20 and the threshold is 44, not 40. *)
Lemma gap_floor_counterexample :
  line_ys 2 20 0 = [0; 20] /\
  extract_rows (surface [0; 20] 0) (seq 0 2) = [0%nat] /\
  median_of (sort_numbers (deltas_of (sort_buckets (bucketize (surface [0; 20] 0) (seq 0 2)))))
  = 20 /\
  GAP_of (sort_buckets (bucketize (surface [0; 20] 0) (seq 0 2))) = 44 /\
  44 <> 40.
Proof.
  repeat split; try reflexivity. discriminate.
Qed.

(** ** Jitter tolerance *)

Lemma bucketize_two (dom : Dom) (g1 g2 : Element) :
  bucketize dom [g1; g2]
  = if Z.abs (rounded_top dom g1 - rounded_top dom g2) <? 2
    then [new_bucket dom g1]
    else [new_bucket dom g1; new_bucket dom g2].
Proof.
  unfold bucketize. simpl. unfold add_staffline at 2. simpl.
  unfold add_staffline, find_bucket, EPS_SMALL. simpl.
  destruct (Z.abs (rounded_top dom g1 - rounded_top dom g2) <? 2); reflexivity.
Qed.

(** C4 (as the code has it).  Positions are tops rounded to the nearest
    pixel.  Scanning in discovery order, a staffline joins the existing
    buckets, leaving them unchanged, when some bucket's coordinate differs
    from its position by less than 2 px, and otherwise starts a new bucket
    with its own position as coordinate.  Hence bucket coordinates are
    pairwise at least 2 px apart, every staffline is within 2 px of a bucket
    coordinate, and every bucket is represented by a scanned staffline; two
    stafflines alone share a bucket exactly when their positions differ by
    less than 2 px. *)
Theorem bucketing_jitter (dom : Dom) :
  (forall buckets g,
     ((exists b, In b buckets /\ Z.abs (bucket_y b - rounded_top dom g) < 2) ->
      add_staffline dom buckets g = buckets) /\
     ((forall b, In b buckets -> 2 <= Z.abs (bucket_y b - rounded_top dom g)) ->
      add_staffline dom buckets g
      = buckets ++ [{| bucket_y := rounded_top dom g; bucket_el := g |}])) /\
  (forall gs,
     ForallOrdPairs (fun a b => 2 <= Z.abs (bucket_y a - bucket_y b)) (bucketize dom gs) /\
     (forall g, In g gs ->
        exists b, In b (bucketize dom gs) /\ Z.abs (bucket_y b - rounded_top dom g) < 2) /\
     (forall b, In b (bucketize dom gs) ->
        bucket_y b = rounded_top dom (bucket_el b) /\ In (bucket_el b) gs)) /\
  (forall g1 g2,
     (Z.abs (rounded_top dom g1 - rounded_top dom g2) < 2 ->
      length (bucketize dom [g1; g2]) = 1%nat) /\
     (2 <= Z.abs (rounded_top dom g1 - rounded_top dom g2) ->
      length (bucketize dom [g1; g2]) = 2%nat)).
Proof.
  split; [| split].
  - intros buckets g. split; [apply add_staffline_join | apply add_staffline_new].
  - intros gs. destruct (bucketize_inv dom gs) as [Hrepr Hapart Hcover].
    split; [exact Hapart |]. split; [exact Hcover | exact Hrepr].
  - intros g1 g2. rewrite bucketize_two.
    destruct (Z.ltb_spec (Z.abs (rounded_top dom g1 - rounded_top dom g2)) 2);
      split; intros; try reflexivity; lia.
Qed.

(** Two stafflines at 10 and 11 px share a bucket; at 10 and 12 px they do
    not. *)
Lemma bucketing_jitter_witness :
  length (bucketize (surface [10; 11] 0) [0%nat; 1%nat]) = 1%nat /\
  length (bucketize (surface [10; 12] 0) [0%nat; 1%nat]) = 2%nat.
Proof.
  split.
  - destruct (bucketing_jitter (surface [10; 11] 0)) as [_ [_ Htwo]].
    apply (Htwo 0%nat 1%nat). vm_compute. reflexivity.
  - destruct (bucketing_jitter (surface [10; 12] 0)) as [_ [_ Htwo]].
    apply (Htwo 0%nat 1%nat). vm_compute. discriminate.
Defined.

(** The pairwise reading fails.  Tops 0, 1, 2 scanned in this order: the
    staffline at 1 joins the bucket of 0 and the one at 2 starts a bucket,
    although 1 and 2 differ by less than 2.  Tops 1, 0, 2: a single bucket
    holds 0 and 2, which differ by 2.  Tops 0.4 and 1.6 differ by 1.2 but
    round to 0 and 2 and get a bucket each. *)
Lemma jitter_pairs_counterexample :
  (map bucket_y (bucketize (surface [0; 1; 2] 0) (seq 0 3)) = [0; 2] /\
   find_bucket (bucketize (surface [0; 1; 2] 0) (seq 0 1)) 1
   = Some {| bucket_y := 0; bucket_el := 0%nat |} /\
   find_bucket (bucketize (surface [0; 1; 2] 0) (seq 0 2)) 2 = None /\
   Z.abs (1 - 2) < 2) /\
  (map bucket_y (bucketize (surface [1; 0; 2] 0) (seq 0 3)) = [1] /\
   2 <= Z.abs (0 - 2)) /\
  (map bucket_y (bucketize (surface_at [4 # 10; 16 # 10]) (seq 0 2)) = [0; 2] /\
   ((16 # 10) - (4 # 10) < 2)%Q).
Proof.
  repeat split; try reflexivity; vm_compute; discriminate.
Qed.

(** ** Re-extraction on resize *)

Lemma captureRows_surface_rows (dom : Dom) (st : State) :
  captureRows dom st
  = Ok (match surface_rows dom with
        | [] => set_rows [] st
        | rows => set_idx (synced_index dom rows) (set_rows rows st)
        end).
Proof.
  rewrite captureRows_eq. unfold surface_rows.
  destruct (svg_stafflines dom) as [gs |]; reflexivity.
Qed.

(** C7 (as the code has it).  A re-extraction, through the resize observer
    ([captureRows] then [scrollToIdx] of the current index) or through the
    plain resize listener ([captureRows] alone), always completes.  When the
    new anchor list is non-empty the index ends in [0, r'-1] and is the one
    [syncIdxToScroll] derives from the present scroll offset, whatever the
    index was before; when the new list is empty the index is left as it
    was.  Only the first load moves to index 0. *)
Theorem resize_reextraction (dom : Dom) (st : State) :
  (exists st', onResize dom st = Ok st' /\
     rowsRef st' = surface_rows dom /\
     (surface_rows dom <> [] ->
        0 <= idxRef st' <= array_length (surface_rows dom) - 1 /\
        exists st_sync,
          syncIdxToScroll dom (set_rows (surface_rows dom) st) = Ok st_sync /\
          idxRef st' = idxRef st_sync) /\
     (surface_rows dom = [] -> idxRef st' = idxRef st)) /\
  (exists st', captureRows dom st = Ok st' /\
     rowsRef st' = surface_rows dom /\
     (surface_rows dom <> [] ->
        0 <= idxRef st' <= array_length (surface_rows dom) - 1 /\
        exists st_sync,
          syncIdxToScroll dom (set_rows (surface_rows dom) st) = Ok st_sync /\
          idxRef st' = idxRef st_sync) /\
     (surface_rows dom = [] -> idxRef st' = idxRef st)) /\
  (exists st', onFirstRender dom st = Ok st' /\
     rowsRef st' = surface_rows dom /\
     (surface_rows dom <> [] -> idxRef st' = 0)).
Proof.
  assert (Hcap : exists st1, captureRows dom st = Ok st1 /\
            rowsRef st1 = surface_rows dom /\
            (surface_rows dom <> [] ->
               0 <= idxRef st1 <= array_length (surface_rows dom) - 1 /\
               exists st_sync,
                 syncIdxToScroll dom (set_rows (surface_rows dom) st) = Ok st_sync /\
                 idxRef st1 = idxRef st_sync) /\
            (surface_rows dom = [] -> idxRef st1 = idxRef st)).
  { rewrite captureRows_surface_rows, syncIdxToScroll_eq. cbn [rowsRef idxRef scrollTo_log set_rows set_idx card_scrollTo bind].
    destruct (surface_rows dom) as [| r rows] eqn:E.
    - eexists; split; [reflexivity |]. cbn [rowsRef idxRef scrollTo_log set_rows set_idx card_scrollTo bind]. split; [reflexivity |].
      split; [congruence | reflexivity].
    - eexists; split; [reflexivity |]. cbn [rowsRef idxRef scrollTo_log set_rows set_idx card_scrollTo bind]. split; [reflexivity |].
      split; [| congruence]. intros _.
      pose proof (synced_index_range dom (r :: rows)) as Hr.
      split; [specialize (Hr ltac:(discriminate)); lia |].
      eexists; split; reflexivity. }
  destruct Hcap as [st1 [Hcap [Hrows [Hne Hnil]]]].
  split; [| split].
  - unfold onResize. rewrite Hcap. cbn [rowsRef idxRef scrollTo_log set_rows set_idx card_scrollTo bind].
    destruct (surface_rows dom) as [| r rows] eqn:E.
    + exists st1. rewrite scrollToIdx_empty by exact Hrows.
      split; [reflexivity |]. split; [exact Hrows |]. split; [congruence | exact Hnil].
    + assert (Hne1 : rowsRef st1 <> []) by (rewrite Hrows; discriminate).
      destruct (scrollToIdx_eq dom (idxRef st1) st1 Hne1) as [e [_ Hgo]].
      rewrite Hgo. eexists; split; [reflexivity |]. cbn [rowsRef idxRef scrollTo_log set_rows set_idx card_scrollTo bind].
      split; [exact Hrows |]. split; [| congruence]. intros _.
      destruct (Hne ltac:(discriminate)) as [Hrange Hsync].
      rewrite Hrows, clamp_index_valid by exact Hrange.
      split; [exact Hrange | exact Hsync].
  - exists st1. split; [exact Hcap |]. split; [exact Hrows |]. split; assumption.
  - unfold onFirstRender. rewrite Hcap. cbn [rowsRef idxRef scrollTo_log set_rows set_idx card_scrollTo bind].
    destruct (surface_rows dom) as [| r rows] eqn:E.
    + exists st1. rewrite Hrows. cbn [rowsRef idxRef scrollTo_log set_rows set_idx card_scrollTo bind]. split; [reflexivity |].
      split; [reflexivity | congruence].
    + assert (Hne1 : rowsRef st1 <> []) by (rewrite Hrows; discriminate).
      destruct (scrollToIdx_eq dom 0 st1 Hne1) as [e [_ Hgo]].
      assert (H0 : array_get (rowsRef st1) 0 = Some r) by (rewrite Hrows; reflexivity).
      rewrite H0, Hgo.
      eexists; split; [reflexivity |]. cbn [rowsRef idxRef scrollTo_log set_rows set_idx card_scrollTo bind]. split; [exact Hrows |].
      intros _. pose proof (array_length_pos _ Hne1). unfold clamp_index. lia.
Qed.

(** Five rows with the index on the last one; after a resize the surface
    has three rows (at 0, 100, 200) and the card is scrolled to 150 px: the
    index ends on row 1, the row in view. *)
Lemma resize_reextraction_witness :
  exists st',
    onResize (surface [0; 10; 100; 110; 200; 210] 150)
      {| rowsRef := [0; 1; 2; 3; 4]%nat; idxRef := 4; scrollTo_log := [] |} = Ok st' /\
    length (rowsRef st') = 3%nat /\ 0 <= idxRef st' <= 2.
Proof.
  destruct (resize_reextraction (surface [0; 10; 100; 110; 200; 210] 150)
              {| rowsRef := [0; 1; 2; 3; 4]%nat; idxRef := 4; scrollTo_log := [] |})
    as [[st' [Hres [Hrows [Hne _]]]] _].
  exists st'. split; [exact Hres |].
  assert (E : surface_rows (surface [0; 10; 100; 110; 200; 210] 150)
              = [0%nat; 2%nat; 4%nat]) by (vm_compute; reflexivity).
  rewrite E in Hrows, Hne. rewrite Hrows. split; [reflexivity |].
  destruct Hne as [Hrange _]; [discriminate | exact Hrange].
Defined.

(** The same resize: the row count drops from 5 to 3, below the prior index
    4 plus one, and the index ends at 1, not at [r' - 1 = 2]. *)
Lemma resize_clamp_counterexample :
  onResize (surface [0; 10; 100; 110; 200; 210] 150)
    {| rowsRef := [0; 1; 2; 3; 4]%nat; idxRef := 4; scrollTo_log := [] |}
  = Ok {| rowsRef := [0; 2; 4]%nat; idxRef := 1; scrollTo_log := [100 # 1] |} /\
  3 < 4 + 1 /\ 1 <> 3 - 1.
Proof.
  repeat split; try reflexivity. discriminate.
Qed.

(** * Further properties *)

(** ** Shape of every extraction *)

Lemma StronglySorted_of_map {A B : Type} (f : A -> B) (R : B -> B -> Prop) (l : list A) :
  StronglySorted R (map f l) -> StronglySorted (fun a b => R (f a) (f b)) l.
Proof.
  induction l as [| a l IH]; simpl; intros H; [constructor |].
  inversion H as [| ? ? Hl Ha]; subst. constructor; [now apply IH |].
  now rewrite Forall_map in Ha.
Qed.

Lemma StronglySorted_NoDup {A : Type} (R : A -> A -> Prop) (l : list A) :
  (forall a, ~ R a a) -> StronglySorted R l -> NoDup l.
Proof.
  intros Hirr. induction 1 as [| a l Hl IH Ha]; constructor; [| exact IH].
  intros Hin. rewrite Forall_forall in Ha. exact (Hirr a (Ha a Hin)).
Qed.

Lemma extract_rows_spaced_GAP (dom : Dom) (gs : list Element) :
  StronglySorted
    (fun a b => rounded_top dom a + GAP_of (sort_buckets (bucketize dom gs))
                < rounded_top dom b)
    (extract_rows dom gs).
Proof.
  apply (StronglySorted_of_map (rounded_top dom)
           (fun a b => a + GAP_of (sort_buckets (bucketize dom gs)) < b)).
  rewrite extract_rows_ys, GAP_of_numbers, sort_buckets_ys.
  apply pick_numbers_None_spaced, sort_numbers_sorted.
Qed.

Lemma GAP_of_floor (buckets : list Bucket) : 40 <= GAP_of buckets.
Proof. unfold GAP_of. apply gap_of_median_floor. Qed.

(** X1.  Whatever the stafflines and their tops, the anchors are stafflines
    of the surface, no staffline is an anchor twice, the threshold is at
    least 40, and the rounded tops of the anchors ascend with any later
    anchor more than the threshold below an earlier one. *)
Theorem extraction_anchors_spaced (dom : Dom) (gs : list Element) :
  incl (extract_rows dom gs) gs /\
  NoDup (extract_rows dom gs) /\
  40 <= GAP_of (sort_buckets (bucketize dom gs)) /\
  forall j k a b,
    (j < k)%nat ->
    nth_error (extract_rows dom gs) j = Some a ->
    nth_error (extract_rows dom gs) k = Some b ->
    rounded_top dom a + GAP_of (sort_buckets (bucketize dom gs)) < rounded_top dom b.
Proof.
  pose proof (extract_rows_spaced_GAP dom gs) as Hs.
  pose proof (GAP_of_floor (sort_buckets (bucketize dom gs))) as Hfloor.
  split; [apply extract_rows_incl |]. split; [| split; [exact Hfloor |]].
  - eapply StronglySorted_NoDup; [| exact Hs]. simpl. intros a. lia.
  - intros j k a b Hjk Ha Hb.
    exact (StronglySorted_nth_error _ _ Hs j k a b Hjk Ha Hb).
Qed.

Lemma add_staffline_length (dom : Dom) (buckets : list Bucket) (g : Element) :
  (length (add_staffline dom buckets g) <= S (length buckets))%nat.
Proof.
  unfold add_staffline. destruct (find_bucket buckets (rounded_top dom g)); [lia |].
  rewrite length_app. simpl. lia.
Qed.

Lemma bucketize_length (dom : Dom) (gs : list Element) :
  (length (bucketize dom gs) <= length gs)%nat.
Proof.
  unfold bucketize.
  assert (H : forall acc,
             (length (fold_left (add_staffline dom) gs acc) <= length acc + length gs)%nat).
  { induction gs as [| g gs IH]; intros acc; simpl; [lia |].
    specialize (IH (add_staffline dom acc g)).
    pose proof (add_staffline_length dom acc g). lia. }
  exact (H []).
Qed.

Lemma pick_rows_length (GAP : Z) (buckets : list Bucket) :
  forall prev, (length (pick_rows GAP prev buckets) <= length buckets)%nat.
Proof.
  induction buckets as [| b rest IH]; intros prev; simpl; [lia |].
  specialize (IH (Some b)).
  destruct prev as [p |]; [destruct (GAP <? bucket_y b - bucket_y p) |]; simpl; lia.
Qed.

Lemma sort_buckets_length (buckets : list Bucket) :
  length (sort_buckets buckets) = length buckets.
Proof. apply Permutation_length, array_sort_perm. Qed.

Lemma sort_buckets_In (buckets : list Bucket) (b : Bucket) :
  In b (sort_buckets buckets) <-> In b buckets.
Proof.
  split; apply Permutation_in;
    [apply array_sort_perm | apply Permutation_sym, array_sort_perm].
Qed.

Lemma sort_buckets_head_least (dom : Dom) (gs : list Element) (b : Bucket)
      (rest : list Bucket) :
  sort_buckets (bucketize dom gs) = b :: rest ->
  forall b', In b' (bucketize dom gs) -> bucket_y b <= bucket_y b'.
Proof.
  intros E b' Hb'.
  assert (Hin : In b' (b :: rest)) by (rewrite <- E; now apply sort_buckets_In).
  pose proof (sort_numbers_sorted (map bucket_y (bucketize dom gs))) as Hs.
  fold (sorted_ys dom gs) in Hs. rewrite <- sort_buckets_ys, E in Hs.
  simpl in Hs. inversion Hs as [| ? ? _ Hall]; subst.
  destruct Hin as [<- | Hin]; [lia |].
  rewrite Forall_map, Forall_forall in Hall. now apply Hall.
Qed.

(** X2.  Extraction finds no anchor exactly when the surface has no
    staffline, never more anchors than stafflines, and its first anchor is a
    topmost staffline: no staffline's rounded top is more than 1 px above
    it. *)
Theorem extraction_first_anchor (dom : Dom) (gs : list Element) :
  (extract_rows dom gs = [] <-> gs = []) /\
  (length (extract_rows dom gs) <= length gs)%nat /\
  (forall e, hd_error (extract_rows dom gs) = Some e ->
             In e gs /\
             forall g, In g gs -> rounded_top dom e <= rounded_top dom g + 1).
Proof.
  destruct (bucketize_inv dom gs) as [Hrepr _ Hcover].
  unfold extract_rows.
  destruct (sort_buckets (bucketize dom gs)) as [| b rest] eqn:E.
  - assert (Hnil : bucketize dom gs = []).
    { apply length_zero_iff_nil. rewrite <- sort_buckets_length, E. reflexivity. }
    assert (Hgs : gs = []).
    { destruct gs as [| g gs']; [reflexivity |].
      destruct (Hcover g (or_introl eq_refl)) as [b [Hb _]].
      rewrite Hnil in Hb. destruct Hb. }
    subst gs. simpl. split; [tauto |]. split; [lia | discriminate].
  - simpl. split; [| split].
    + split; [discriminate |]. intros ->. discriminate.
    + pose proof (pick_rows_length (GAP_of (b :: rest)) rest (Some b)) as Hl.
      pose proof (bucketize_length dom gs) as Hb.
      rewrite <- sort_buckets_length, E in Hb. simpl in Hb. lia.
    + intros e He. inversion He; subst e.
      assert (Hbin : In b (bucketize dom gs))
        by (apply sort_buckets_In; rewrite E; now left).
      destruct (Hrepr b Hbin) as [Hy Hel]. split; [exact Hel |].
      intros g Hg. destruct (Hcover g Hg) as [b' [Hb' Hnear]].
      pose proof (sort_buckets_head_least dom gs b rest E b' Hb'). lia.
Qed.

Lemma sorted_apart_strict {A : Type} (k : A -> Z) (l : list A) :
  StronglySorted (fun a b => k a <= k b) l ->
  ForallOrdPairs (fun a b => 2 <= Z.abs (k a - k b)) l ->
  StronglySorted (fun a b => k a + 2 <= k b) l.
Proof.
  induction 1 as [| a l Hl IH Ha]; intros Hp; [constructor |].
  inversion Hp as [| ? ? Hpa Hpl]; subst. constructor; [now apply IH |].
  rewrite Forall_forall in *. intros x Hx.
  specialize (Ha x Hx). specialize (Hpa x Hx). simpl in *. lia.
Qed.

Lemma sort_buckets_strict (dom : Dom) (gs : list Element) :
  StronglySorted (fun a b => bucket_y a + 2 <= bucket_y b)
                 (sort_buckets (bucketize dom gs)).
Proof.
  apply sorted_apart_strict.
  - apply (StronglySorted_of_map bucket_y Z.le).
    rewrite sort_buckets_ys. apply sort_numbers_sorted.
  - apply ForallOrdPairs_perm with (l := bucketize dom gs).
    + intros a b H. lia.
    + apply Permutation_sym, array_sort_perm.
    + apply (inv_apart _ _ _ (bucketize_inv dom gs)).
Qed.

Lemma deltas_of_strict (buckets : list Bucket) :
  StronglySorted (fun a b => bucket_y a + 2 <= bucket_y b) buckets ->
  Forall (fun g => 2 <= g) (deltas_of buckets).
Proof.
  induction buckets as [| b0 [| b1 rest] IH]; intros Hs; try constructor.
  - inversion Hs as [| ? ? _ Hall]; subst. inversion Hall; subst. lia.
  - apply IH. now inversion Hs.
Qed.

(** X3.  After the sort the buckets are the same buckets, in strictly
    ascending order of coordinate, any two at least 2 px apart; so every gap
    the median is taken from is at least 2. *)
Theorem sorted_buckets_strictly_ascending (dom : Dom) (gs : list Element) :
  Permutation (sort_buckets (bucketize dom gs)) (bucketize dom gs) /\
  (forall j k a b,
     (j < k)%nat ->
     nth_error (sort_buckets (bucketize dom gs)) j = Some a ->
     nth_error (sort_buckets (bucketize dom gs)) k = Some b ->
     bucket_y a + 2 <= bucket_y b) /\
  Forall (fun g => 2 <= g) (deltas_of (sort_buckets (bucketize dom gs))).
Proof.
  pose proof (sort_buckets_strict dom gs) as Hs.
  split; [apply array_sort_perm |]. split.
  - intros j k a b Hjk Ha Hb.
    exact (StronglySorted_nth_error _ _ Hs j k a b Hjk Ha Hb).
  - now apply deltas_of_strict.
Qed.

(** ** How many anchors there can be *)

Lemma pick_numbers_length (GAP : Z) (ys : list Z) :
  forall p,
    length (pick_numbers GAP (Some p) ys)
    = length (filter (fun g => GAP <? g) (deltas_numbers (p :: ys))).
Proof.
  induction ys as [| y rest IH]; intros p; [reflexivity |].
  change (deltas_numbers (p :: y :: rest)) with ((y - p) :: deltas_numbers (y :: rest)).
  cbn [pick_numbers filter]. destruct (GAP <? y - p); simpl; now rewrite IH.
Qed.

Lemma filter_length_perm {A : Type} (f : A -> bool) (l l' : list A) :
  Permutation l l' -> length (filter f l) = length (filter f l').
Proof.
  induction 1 as [| x l l' _ IH | x y l | l l' l'' _ IH1 _ IH2]; simpl.
  - reflexivity.
  - destruct (f x); simpl; now rewrite IH.
  - destruct (f x), (f y); reflexivity.
  - now rewrite IH1.
Qed.

Lemma filter_length_mono {A : Type} (f g : A -> bool) (l : list A) :
  (forall x, f x = true -> g x = true) ->
  (length (filter f l) <= length (filter g l))%nat.
Proof.
  intros Himp. induction l as [| x l IH]; simpl; [lia |].
  destruct (f x) eqn:Ef.
  - rewrite (Himp x Ef). simpl. lia.
  - destruct (g x); simpl; lia.
Qed.

(** In a sorted list, the elements above the one at index [i] all come
    after index [i]. *)
Lemma sorted_filter_above_nth (l : list Z) :
  StronglySorted Z.le l ->
  forall i, (i < length l)%nat ->
            (length (filter (fun g => (nth i l 0 <? g)%Z) l) + i + 1 <= length l)%nat.
Proof.
  induction 1 as [| a t Ht IH Ha]; intros i Hi; simpl in Hi; [lia |].
  destruct i as [| i].
  - cbn [nth filter]. rewrite Z.ltb_irrefl.
    pose proof (filter_length_le (fun g => a <? g) t). simpl. lia.
  - cbn [nth filter].
    assert (Hle : a <= nth i t 0).
    { rewrite Forall_forall in Ha. apply Ha. apply nth_In. lia. }
    destruct (Z.ltb_spec (nth i t 0) a) as [Hlt | _]; [lia |].
    specialize (IH i ltac:(lia)). simpl. lia.
Qed.

Lemma gap_of_median_above (m : Z) : m <= gap_of_median m.
Proof.
  destruct (Z.le_gt_cases 0 m) as [Hpos | Hneg]; [now apply gap_of_median_ge |].
  pose proof (gap_of_median_floor m). lia.
Qed.

Lemma deltas_numbers_length (ys : list Z) :
  length (deltas_numbers ys) = Nat.pred (length ys).
Proof.
  induction ys as [| a [| b t] IH]; try reflexivity.
  change (deltas_numbers (a :: b :: t)) with ((b - a) :: deltas_numbers (b :: t)).
  cbn [length] in *. rewrite IH. reflexivity.
Qed.

Lemma median_index_half (l : list Z) :
  l <> [] ->
  (length l <= 2 * Z.to_nat (Z.shiftr (array_length l - 1) 1) + 2)%nat.
Proof.
  intros Hne. unfold array_length. destruct l as [| x t]; [congruence |].
  cbn [length]. rewrite Z.shiftr_div_pow2 by lia. change (2 ^ 1) with 2.
  assert (H : Z.of_nat (S (length t)) - 1 <= 2 * ((Z.of_nat (S (length t)) - 1) / 2) + 1).
  { pose proof (Z.div_mod (Z.of_nat (S (length t)) - 1) 2 ltac:(lia)) as Hdm.
    pose proof (Z.mod_pos_bound (Z.of_nat (S (length t)) - 1) 2 ltac:(lia)). lia. }
  assert (H0 : 0 <= (Z.of_nat (S (length t)) - 1) / 2) by (apply Z.div_pos; lia).
  lia.
Qed.

(** The gaps above the threshold are at most half of the gaps, rounded
    down. *)
Lemma jumps_at_most_half (ys : list Z) :
  (2 * length (filter (fun g => (GAP_numbers ys <? g)%Z) (deltas_numbers ys))
   <= length (deltas_numbers ys))%nat.
Proof.
  set (deltas := deltas_numbers ys).
  set (sorted := sort_numbers deltas).
  rewrite (filter_length_perm _ deltas sorted)
    by (apply Permutation_sym, sort_numbers_perm).
  assert (Hlen : length sorted = length deltas)
    by (apply Permutation_length, sort_numbers_perm).
  rewrite <- Hlen.
  destruct sorted as [| x t] eqn:E; [simpl; lia |].
  assert (Hne : sorted <> []) by (rewrite E; discriminate).
  rewrite <- E.
  pose proof (median_index_in_range sorted Hne) as Hidx.
  pose proof (median_index_half sorted Hne) as Hhalf.
  pose proof (sorted_filter_above_nth sorted (sort_numbers_sorted deltas) _ Hidx) as Habove.
  assert (Hmed : median_of sorted
                 = nth (Z.to_nat (Z.shiftr (array_length sorted - 1) 1)) sorted 0).
  { unfold median_of. destruct (array_length sorted =? 0) eqn:E0; [| reflexivity].
    apply array_length_nil_iff in E0. contradiction. }
  pose proof (filter_length_mono
                (fun g => GAP_numbers ys <? g)
                (fun g => nth (Z.to_nat (Z.shiftr (array_length sorted - 1) 1)) sorted 0 <? g)
                sorted) as Hmono.
  assert (Himp : forall g, (GAP_numbers ys <? g) = true ->
            (nth (Z.to_nat (Z.shiftr (array_length sorted - 1) 1)) sorted 0 <? g) = true).
  { intros g Hg. apply Z.ltb_lt in Hg. apply Z.ltb_lt.
    rewrite <- Hmed. unfold GAP_numbers in Hg. fold deltas in Hg. fold sorted in Hg.
    pose proof (gap_of_median_above (median_of sorted)). lia. }
  specialize (Hmono Himp). lia.
Qed.

(** X4.  The anchors are at most one more than half the gaps between
    buckets: twice their number is at most the number of buckets plus one.
    (A surface needs at least [2k - 1] separate staff lines to show [k]
    rows.) *)
Theorem extraction_at_most_half (dom : Dom) (gs : list Element) :
  (2 * length (extract_rows dom gs) <= length (bucketize dom gs) + 1)%nat /\
  (2 * length (extract_rows dom gs) <= length gs + 1)%nat.
Proof.
  assert (H : (2 * length (extract_rows dom gs) <= length (bucketize dom gs) + 1)%nat).
  { rewrite <- (length_map (rounded_top dom)), extract_rows_ys.
    assert (Hlen : length (sorted_ys dom gs) = length (bucketize dom gs)).
    { unfold sorted_ys. rewrite (Permutation_length (sort_numbers_perm _)).
      apply length_map. }
    rewrite <- Hlen.
    pose proof (jumps_at_most_half (sorted_ys dom gs)) as Hj.
    rewrite deltas_numbers_length in Hj.
    destruct (sorted_ys dom gs) as [| y rest] eqn:E; [simpl; lia |].
    rewrite pick_numbers_first. cbn [length].
    rewrite pick_numbers_length. cbn [length Nat.pred] in Hj. lia. }
  split; [exact H |]. pose proof (bucketize_length dom gs). lia.
Qed.

(** ** Extraction does not depend on whole-pixel offsets *)

Lemma Qfloor_unique (q : Q) (z : Z) :
  (inject_Z z <= q)%Q -> (q < inject_Z (z + 1))%Q -> Qfloor q = z.
Proof.
  intros Hle Hlt.
  assert (H1 : z <= Qfloor q).
  { rewrite <- (Qfloor_Z z). now apply Qfloor_resp_le. }
  assert (H2 : Qfloor q < z + 1).
  { destruct (Z.lt_ge_cases (Qfloor q) (z + 1)) as [H | H]; [exact H | exfalso].
    rewrite Zle_Qle in H. pose proof (Qfloor_le q). lra. }
  lia.
Qed.

Lemma Math_round_shift (x : Q) (c : Z) :
  Math_round (x + inject_Z c) = Math_round x + c.
Proof.
  destruct (Math_round_bounds x) as [Hlo Hhi].
  unfold Math_round at 1. apply Qfloor_unique.
  - rewrite inject_Z_plus. lra.
  - rewrite !inject_Z_plus. change (inject_Z 1) with 1%Q. lra.
Qed.

Lemma find_bucket_shift (c : Z) (buckets : list Bucket) (y : Z) :
  find_bucket (map (fun b => {| bucket_y := bucket_y b + c; bucket_el := bucket_el b |})
                   buckets) (y + c)
  = option_map (fun b => {| bucket_y := bucket_y b + c; bucket_el := bucket_el b |})
               (find_bucket buckets y).
Proof.
  unfold find_bucket. induction buckets as [| b rest IH]; simpl; [reflexivity |].
  replace (bucket_y b + c - (y + c)) with (bucket_y b - y) by lia.
  destruct (Z.abs (bucket_y b - y) <? EPS_SMALL); [reflexivity | exact IH].
Qed.

Section Shift.

Variables (dom dom' : Dom) (c : Z).

Let shift (b : Bucket) : Bucket :=
  {| bucket_y := bucket_y b + c; bucket_el := bucket_el b |}.

Lemma add_staffline_shift (buckets : list Bucket) (g : Element) :
  rounded_top dom' g = rounded_top dom g + c ->
  add_staffline dom' (map shift buckets) g = map shift (add_staffline dom buckets g).
Proof.
  intros Hg. unfold add_staffline. rewrite Hg. unfold shift at 1.
  rewrite find_bucket_shift.
  destruct (find_bucket buckets (rounded_top dom g)); simpl; [reflexivity |].
  now rewrite map_app.
Qed.

Lemma fold_add_staffline_shift (gs : list Element) :
  (forall g, In g gs -> rounded_top dom' g = rounded_top dom g + c) ->
  forall acc,
    fold_left (add_staffline dom') gs (map shift acc)
    = map shift (fold_left (add_staffline dom) gs acc).
Proof.
  induction gs as [| g gs IH]; intros Hgs acc; simpl; [reflexivity |].
  rewrite add_staffline_shift by (apply Hgs; now left).
  apply IH. intros g' Hg'. apply Hgs. now right.
Qed.

Lemma sort_insert_shift (x : Bucket) (l : list Bucket) :
  sort_insert (fun a b => bucket_y a - bucket_y b) (shift x) (map shift l)
  = map shift (sort_insert (fun a b => bucket_y a - bucket_y b) x l).
Proof.
  induction l as [| h t IH]; simpl; [reflexivity |].
  replace (bucket_y x + c - (bucket_y h + c)) with (bucket_y x - bucket_y h) by lia.
  destruct (bucket_y x - bucket_y h <=? 0); simpl; [reflexivity | now rewrite IH].
Qed.

Lemma sort_buckets_shift (l : list Bucket) :
  sort_buckets (map shift l) = map shift (sort_buckets l).
Proof.
  unfold sort_buckets, array_sort. induction l as [| x t IH]; simpl; [reflexivity |].
  now rewrite IH, sort_insert_shift.
Qed.

Lemma deltas_of_shift (l : list Bucket) : deltas_of (map shift l) = deltas_of l.
Proof.
  induction l as [| b0 [| b1 rest] IH]; try reflexivity.
  change (deltas_of (map shift (b0 :: b1 :: rest)))
    with ((bucket_y b1 + c - (bucket_y b0 + c)) :: deltas_of (map shift (b1 :: rest))).
  rewrite IH. simpl. f_equal. lia.
Qed.

Lemma pick_rows_shift (GAP : Z) (l : list Bucket) :
  forall prev,
    pick_rows GAP (option_map shift prev) (map shift l) = pick_rows GAP prev l.
Proof.
  induction l as [| b rest IH]; intros prev; simpl; [reflexivity |].
  specialize (IH (Some b)). simpl in IH.
  destruct prev as [p |]; simpl.
  - replace (bucket_y b + c - (bucket_y p + c)) with (bucket_y b - bucket_y p) by lia.
    destruct (GAP <? bucket_y b - bucket_y p); now rewrite IH.
  - now rewrite IH.
Qed.

Lemma extract_rows_shift (gs : list Element) :
  (forall g, In g gs -> rounded_top dom' g = rounded_top dom g + c) ->
  extract_rows dom' gs = extract_rows dom gs.
Proof.
  intros Hgs. unfold extract_rows, bucketize.
  change (@nil Bucket) with (map shift []) at 1 2.
  rewrite (fold_add_staffline_shift gs Hgs []), sort_buckets_shift.
  unfold GAP_of. rewrite deltas_of_shift.
  apply (pick_rows_shift _ _ None).
Qed.

End Shift.

(** X5.  Moving every staffline by the same whole number of pixels (as
    scrolling the card by whole pixels does) changes neither the anchors nor
    their order: extraction reads only differences of rounded tops. *)
Theorem extraction_shift_invariant (dom dom' : Dom) (gs : list Element) (c : Z) :
  (forall g, In g gs -> (rect_top dom' g == rect_top dom g + inject_Z c)%Q) ->
  extract_rows dom' gs = extract_rows dom gs.
Proof.
  intros Hgs. apply (extract_rows_shift dom dom' c).
  intros g Hg. unfold rounded_top.
  rewrite <- Math_round_shift. unfold Math_round. apply Qfloor_comp.
  rewrite (Hgs g Hg). reflexivity.
Qed.

(** The example scenario seen with the card scrolled by 100 px. *)
Lemma extraction_shift_invariant_witness :
  extract_rows (surface example_ys 100) (seq 0 12)
  = extract_rows (surface example_ys 0) (seq 0 12).
Proof.
  apply (extraction_shift_invariant (surface example_ys 0) (surface example_ys 100)
           (seq 0 12) (-100)).
  intros g _. simpl. rewrite <- inject_Z_plus.
  apply inject_Z_injective. lia.
Defined.

(** ** Scroll synchronisation and the scroll offset *)

Lemma prefix_len_mono {A : Type} (f g : A -> bool) (l : list A) :
  (forall x, f x = true -> g x = true) ->
  (prefix_len f l <= prefix_len g l)%nat.
Proof.
  intros Himp. induction l as [| x t IH]; simpl; [lia |].
  destruct (f x) eqn:Ef; [| lia]. rewrite (Himp x Ef). lia.
Qed.

Lemma prefix_len_all {A : Type} (f : A -> bool) (l : list A) :
  (forall x, In x l -> f x = true) -> prefix_len f l = length l.
Proof.
  induction l as [| x t IH]; simpl; intros H; [reflexivity |].
  rewrite (H x (or_introl eq_refl)). f_equal. apply IH. intros y Hy. apply H. now right.
Qed.

(** X6.  In one layout, scrolling the card further down never lowers the
    index [syncIdxToScroll] computes, whatever the order of the anchors. *)
Theorem sync_monotone_in_scroll (dom dom' : Dom) (st : State) :
  same_layout dom dom' ->
  (card_scrollTop dom <= card_scrollTop dom')%Q ->
  exists st1 st2,
    syncIdxToScroll dom st = Ok st1 /\
    syncIdxToScroll dom' st = Ok st2 /\
    idxRef st1 <= idxRef st2.
Proof.
  intros Hsame Hscroll. rewrite !syncIdxToScroll_eq.
  eexists; eexists; split; [reflexivity |]. split; [reflexivity |].
  destruct (rowsRef st) as [| r rows]; [lia |]. simpl.
  unfold synced_index.
  pose proof (prefix_len_mono (at_or_above dom) (at_or_above dom') (r :: rows)) as H.
  assert (Himp : forall e, at_or_above dom e = true -> at_or_above dom' e = true).
  { intros e He. apply at_or_above_iff in He. apply at_or_above_iff.
    rewrite <- (Hsame e). lra. }
  specialize (H Himp). lia.
Qed.

(** The sample surface at 0 px and at 100 px: index 0, then index 1. *)
Lemma sync_monotone_in_scroll_witness :
  exists st1 st2,
    syncIdxToScroll (surface example_ys 0)
      {| rowsRef := [0%nat; 4%nat; 8%nat]; idxRef := 2; scrollTo_log := [] |} = Ok st1 /\
    syncIdxToScroll (surface example_ys 100)
      {| rowsRef := [0%nat; 4%nat; 8%nat]; idxRef := 2; scrollTo_log := [] |} = Ok st2 /\
    idxRef st1 <= idxRef st2.
Proof.
  apply (sync_monotone_in_scroll (surface example_ys 0) (surface example_ys 100)).
  - apply surface_same_layout.
  - vm_compute. discriminate.
Defined.

(** X7.  When every anchor is at or above [scrollTop + 4] (the card is
    scrolled to or past the last row), [syncIdxToScroll] selects the last
    anchor. *)
Theorem sync_past_all_anchors (dom : Dom) (st : State) :
  rowsRef st <> [] ->
  (forall e, In e (rowsRef st) -> (content_y dom e <= card_scrollTop dom + 4)%Q) ->
  exists st', syncIdxToScroll dom st = Ok st' /\
              idxRef st' = array_length (rowsRef st) - 1.
Proof.
  intros Hne Hall. rewrite syncIdxToScroll_eq.
  destruct (rowsRef st) as [| r rows] eqn:E; [congruence |].
  eexists; split; [reflexivity |]. cbn [idxRef set_idx].
  unfold synced_index, array_length.
  rewrite prefix_len_all by (intros x Hx; apply at_or_above_iff; now apply Hall).
  cbn [length Nat.pred]. lia.
Qed.

(** The sample surface scrolled to 500 px: the last of the three rows. *)
Lemma sync_past_all_anchors_witness :
  exists st',
    syncIdxToScroll (surface example_ys 500)
      {| rowsRef := [0%nat; 4%nat; 8%nat]; idxRef := 0; scrollTo_log := [] |} = Ok st' /\
    idxRef st' = 2.
Proof.
  apply (sync_past_all_anchors (surface example_ys 500)
           {| rowsRef := [0%nat; 4%nat; 8%nat]; idxRef := 0; scrollTo_log := [] |}).
  - discriminate.
  - intros e He. simpl in He.
    destruct He as [<- | [<- | [<- | []]]]; vm_compute; discriminate.
Defined.

(** ** Composing navigation steps *)

Lemma scrollToIdx_result (dom : Dom) (i : Z) (st : State) :
  rowsRef st <> [] ->
  exists st', scrollToIdx dom i st = Ok st' /\
              rowsRef st' = rowsRef st /\
              idxRef st' = clamp_index i (array_length (rowsRef st)) /\
              length (scrollTo_log st') = S (length (scrollTo_log st)).
Proof.
  intros Hne. destruct (scrollToIdx_eq dom i st Hne) as [e [_ Heq]].
  rewrite Heq. eexists; split; [reflexivity |]. simpl. auto.
Qed.

(** X8.  With a non-negative step, going forward and then back returns to
    the row one started from as long as the forward step stayed inside the
    list, and likewise back and then forward; but from the last row, forward
    is clamped and stays there, and going back then ends at
    [max(0, last - step)]: [step] rows before the last one, or the first row
    when [step] exceeds the list. *)
Theorem next_prev_round_trip (step : Z) (dom dom' : Dom) (st : State) :
  rowsRef st <> [] ->
  0 <= step ->
  0 <= idxRef st <= array_length (rowsRef st) - 1 ->
  (idxRef st + step <= array_length (rowsRef st) - 1 ->
   exists st1 st2, next step dom st = Ok st1 /\ prev step dom' st1 = Ok st2 /\
                   rowsRef st2 = rowsRef st /\ idxRef st2 = idxRef st) /\
  (0 <= idxRef st - step ->
   exists st1 st2, prev step dom st = Ok st1 /\ next step dom' st1 = Ok st2 /\
                   rowsRef st2 = rowsRef st /\ idxRef st2 = idxRef st) /\
  (idxRef st = array_length (rowsRef st) - 1 ->
   exists st1 st2, next step dom st = Ok st1 /\ prev step dom' st1 = Ok st2 /\
                   idxRef st1 = idxRef st /\
                   idxRef st2 = Z.max 0 (idxRef st - step) /\
                   (step <= array_length (rowsRef st) - 1 ->
                    idxRef st2 = idxRef st - step)).
Proof.
  intros Hne Hstep Hidx. unfold next, prev.
  assert (Hgo : forall d i s, rowsRef s = rowsRef st ->
            exists s', scrollToIdx d i s = Ok s' /\ rowsRef s' = rowsRef st /\
                       idxRef s' = clamp_index i (array_length (rowsRef st))).
  { intros d i s Hs. destruct (scrollToIdx_result d i s) as [s' [H [Hr [Hi _]]]];
      [rewrite Hs; exact Hne |].
    exists s'. rewrite Hs in Hr, Hi. auto. }
  split; [| split].
  - intros Hin.
    destruct (Hgo dom (idxRef st + step) st eq_refl) as [st1 [H1 [Hr1 Hi1]]].
    destruct (Hgo dom' (idxRef st1 - step) st1 Hr1) as [st2 [H2 [Hr2 Hi2]]].
    exists st1, st2. repeat split; try assumption.
    rewrite Hi2, Hi1. unfold clamp_index. lia.
  - intros Hin.
    destruct (Hgo dom (idxRef st - step) st eq_refl) as [st1 [H1 [Hr1 Hi1]]].
    destruct (Hgo dom' (idxRef st1 + step) st1 Hr1) as [st2 [H2 [Hr2 Hi2]]].
    exists st1, st2. repeat split; try assumption.
    rewrite Hi2, Hi1. unfold clamp_index. lia.
  - intros Hlast.
    destruct (Hgo dom (idxRef st + step) st eq_refl) as [st1 [H1 [Hr1 Hi1]]].
    destruct (Hgo dom' (idxRef st1 - step) st1 Hr1) as [st2 [H2 [Hr2 Hi2]]].
    exists st1, st2. split; [exact H1 |]. split; [exact H2 |].
    split; [rewrite Hi1; unfold clamp_index; lia |].
    split; [rewrite Hi2, Hi1; unfold clamp_index; lia |].
    intros Hfit. rewrite Hi2, Hi1. unfold clamp_index. lia.
Qed.

(** Three rows, step 2: from row 0 forward to row 2 and back to row 0. *)
Lemma next_prev_round_trip_witness :
  exists st1 st2,
    next 2 (surface example_ys 0)
      {| rowsRef := [0%nat; 4%nat; 8%nat]; idxRef := 0; scrollTo_log := [] |} = Ok st1 /\
    prev 2 (surface example_ys 200) st1 = Ok st2 /\
    rowsRef st2 = [0%nat; 4%nat; 8%nat] /\ idxRef st2 = 0.
Proof.
  destruct (next_prev_round_trip 2 (surface example_ys 0) (surface example_ys 200)
              {| rowsRef := [0%nat; 4%nat; 8%nat]; idxRef := 0; scrollTo_log := [] |})
    as [Hfwd _].
  - discriminate.
  - lia.
  - vm_compute. split; discriminate.
  - apply Hfwd. vm_compute. discriminate.
Defined.

(** X9.  Pressing forward [n] times from a valid row with a non-negative
    step ends at row [min(i + n * step, last)]: the index never passes the
    last row and stays there once reached; every press issues one scroll
    command and none changes the anchors. *)
Theorem press_next_saturates (step : Z) (doms : list Dom) (st : State) :
  rowsRef st <> [] ->
  0 <= step ->
  0 <= idxRef st <= array_length (rowsRef st) - 1 ->
  exists st',
    press_next step doms st = Ok st' /\
    rowsRef st' = rowsRef st /\
    idxRef st' = Z.min (idxRef st + Z.of_nat (length doms) * step)
                       (array_length (rowsRef st) - 1) /\
    length (scrollTo_log st') = (length (scrollTo_log st) + length doms)%nat.
Proof.
  intros Hne Hstep. revert st Hne.
  induction doms as [| dom rest IH]; intros st Hne Hidx.
  - exists st. simpl. repeat split; lia.
  - cbn [press_next]. unfold next.
    destruct (scrollToIdx_result dom (idxRef st + step) st Hne)
      as [st1 [H1 [Hr1 [Hi1 Hl1]]]].
    rewrite H1. cbn [bind].
    destruct (IH st1) as [st' [H' [Hr' [Hi' Hl']]]].
    + rewrite Hr1. exact Hne.
    + rewrite Hr1, Hi1. unfold clamp_index. lia.
    + exists st'. split; [exact H' |]. rewrite Hr', Hr1. split; [reflexivity |].
      rewrite Hr1 in Hi'. split.
      * rewrite Hi', Hi1. unfold clamp_index. cbn [length]. nia.
      * rewrite Hl', Hl1. cbn [length]. lia.
Qed.

(** Three rows, step 2, three presses from row 0: row 2, three commands. *)
Lemma press_next_saturates_witness :
  exists st',
    press_next 2 [surface example_ys 0; surface example_ys 200; surface example_ys 200]
      {| rowsRef := [0%nat; 4%nat; 8%nat]; idxRef := 0; scrollTo_log := [] |} = Ok st' /\
    idxRef st' = 2 /\ length (scrollTo_log st') = 3%nat.
Proof.
  destruct (press_next_saturates 2
              [surface example_ys 0; surface example_ys 200; surface example_ys 200]
              {| rowsRef := [0%nat; 4%nat; 8%nat]; idxRef := 0; scrollTo_log := [] |})
    as [st' [H [_ [Hi Hl]]]].
  - discriminate.
  - lia.
  - vm_compute. split; discriminate.
  - exists st'. split; [exact H |]. split; [rewrite Hi; reflexivity | exact Hl].
Defined.

(** ** Keys while there is no anchor *)

(** X10.  A navigation key pressed while the anchor list is empty still has
    its default action suppressed, although nothing moves: the index and the
    scroll commands stay as they were. *)
Theorem onKeyDown_without_anchors (step : Z) (dom : Dom) (e : KeyboardEvent) (st : State) :
  rowsRef st = [] ->
  In (key e) (forward_keys ++ backward_keys) ->
  onKeyDown step dom e st = Ok (preventDefault e, st) /\
  defaultPrevented (preventDefault e) = true.
Proof.
  intros Hnil Hkey. split; [| reflexivity].
  unfold onKeyDown, next, prev. rewrite !scrollToIdx_empty by exact Hnil.
  fold forward_keys backward_keys.
  destruct (includes forward_keys (key e)) eqn:Ef; [reflexivity |].
  destruct (includes backward_keys (key e)) eqn:Eb; [reflexivity |].
  exfalso. apply in_app_or in Hkey. destruct Hkey as [H | H]; apply includes_In in H;
    congruence.
Qed.

(** PageUp on a freshly mounted component. *)
Lemma onKeyDown_without_anchors_witness :
  onKeyDown 2 (surface [] 0) {| key := "PageUp"; defaultPrevented := false |} initial_state
  = Ok ({| key := "PageUp"; defaultPrevented := true |}, initial_state).
Proof.
  apply (onKeyDown_without_anchors 2 (surface [] 0)
           {| key := "PageUp"; defaultPrevented := false |} initial_state).
  - reflexivity.
  - simpl. auto 6.
Defined.

(** ** Lifecycle *)






Lemma dispatch_disposed (step : Z) (ro : bool) (dom : Dom) (ev : Event) (c : Effect) :
  disposed c = true -> listening c = false ->
  exists c', dispatch step ro dom ev c = Ok c' /\
             refs c' = refs c /\ disposed c' = true /\ listening c' = false.
Proof.
  intros Hd Hl. destruct ev; cbn [dispatch]; unfold onRendered;
    rewrite ?Hd, ?Hl; eexists; (split; [reflexivity |]); auto.
Qed.

(** X12.  After the cleanup nothing changes the refs any more: a load chain
    that completes late is discarded by the [disposed] flag, and taps, keys,
    scrolls and resizes find no listener.  No anchor is captured, the index
    is not written and no scroll command is issued. *)
Theorem cleanup_is_final (step : Z) (ro : bool) (evs : list (Dom * Event)) (c : Effect) :
  exists c',
    run_events step ro evs (cleanup c) = Ok c' /\
    refs c' = refs c /\ disposed c' = true /\ listening c' = false.
Proof.
  assert (H : forall c0, disposed c0 = true -> listening c0 = false ->
              exists c', run_events step ro evs c0 = Ok c' /\
                         refs c' = refs c0 /\ disposed c' = true /\ listening c' = false).
  { induction evs as [| [dom ev] rest IH]; intros c0 Hd Hl; cbn [run_events].
    - now exists c0.
    - destruct (dispatch_disposed step ro dom ev c0 Hd Hl) as [c1 [H1 [Hr [Hd1 Hl1]]]].
      rewrite H1. cbn [bind].
      destruct (IH c1 Hd1 Hl1) as [c' [H' [Hr' Hfl]]].
      exists c'. split; [exact H' |]. split; [congruence | exact Hfl]. }
  apply (H (cleanup c)); reflexivity.
Qed.

(** Unmount before the load completes: the late render changes nothing. *)
Lemma cleanup_is_final_witness :
  exists c',
    run_events 2 true
      [(surface example_ys 0, EvRendered); (surface example_ys 0, EvResize)]
      (cleanup (start_effect initial_state)) = Ok c' /\
    refs c' = initial_state.
Proof.
  destruct (cleanup_is_final 2 true
              [(surface example_ys 0, EvRendered); (surface example_ys 0, EvResize)]
              (start_effect initial_state)) as [c' [H [Hr _]]].
  exists c'. split; [exact H | exact Hr].
Defined.

(** X13.  Until the load chain has completed, taps, keys, scrolls and
    resizes change nothing: the listeners are registered only by the last
    step of the chain. *)
Theorem input_ignored_before_render (step : Z) (ro : bool) (evs : list (Dom * Event))
        (st : State) :
  Forall (fun de => input_event (snd de) = true) evs ->
  run_events step ro evs (start_effect st) = Ok (start_effect st).
Proof.
  induction 1 as [| [dom ev] rest Hev _ IH]; cbn [run_events]; [reflexivity |].
  simpl in Hev. destruct ev; try discriminate; cbn [dispatch start_effect listening bind];
    exact IH.
Qed.

(** A tap and a key press while the score is still loading. *)
Lemma input_ignored_before_render_witness :
  run_events 2 true
    [(surface example_ys 0, EvPointerDown {| button := 0; clientX := 700 |});
     (surface example_ys 0, EvKeyDown {| key := "ArrowDown"; defaultPrevented := false |})]
    (start_effect initial_state)
  = Ok (start_effect initial_state).
Proof.
  apply (input_ignored_before_render 2 true). repeat constructor.
Defined.

(** ** The first version of the component *)

Lemma legacy_effect_inv (hosts : list bool) :
  forall c,
    constructed c = (if renderedRef c then 1 else 0)%nat ->
    constructed (fold_left legacy_effect hosts c)
    = (if renderedRef (fold_left legacy_effect hosts c) then 1 else 0)%nat /\
    (renderedRef (fold_left legacy_effect hosts c) = true <->
     renderedRef c = true \/ In true hosts).
Proof.
  induction hosts as [| h rest IH]; intros c Hc; simpl.
  - split; [exact Hc |]. tauto.
  - destruct (IH (legacy_effect c h)) as [H1 H2].
    + unfold legacy_effect. destruct h; simpl; [| exact Hc].
      destruct (renderedRef c) eqn:Er; simpl; [now rewrite Er | ].
      rewrite Hc. reflexivity.
    + split; [exact H1 |]. rewrite H2. unfold legacy_effect.
      destruct h; simpl.
      * destruct (renderedRef c) eqn:Er; simpl; rewrite ?Er; intuition.
      * intuition discriminate.
Qed.

(** X14.  However often the effect of the first version runs, it constructs
    the display at most once: exactly once if the host element was present
    on some run, never otherwise. *)
Theorem legacy_constructs_once (hosts : list bool) :
  (constructed (fold_left legacy_effect hosts legacy_mount) <= 1)%nat /\
  (constructed (fold_left legacy_effect hosts legacy_mount) = 1%nat <-> In true hosts).
Proof.
  destruct (legacy_effect_inv hosts legacy_mount eq_refl) as [H1 H2].
  simpl in H2.
  destruct (renderedRef (fold_left legacy_effect hosts legacy_mount)) eqn:E; rewrite H1.
  - split; [lia |]. split; [intros _ | reflexivity].
    destruct H2 as [H2 _]. destruct (H2 eq_refl) as [H | H]; [discriminate | exact H].
  - split; [lia |]. split; [discriminate |]. intros Hin.
    destruct H2 as [_ H2]. specialize (H2 (or_intror Hin)). discriminate.
Qed.

(** ** Extraction as a whole *)

(** X15.  In every snapshot of the layout the anchors were extracted from
    (whatever the scroll offset), the anchor list is in top-to-bottom order,
    a later anchor lying more than 40 px below an earlier one in the card's
    content. *)
Theorem extracted_anchors_top_to_bottom (dom dom' : Dom) (gs : list Element) :
  same_layout dom dom' ->
  top_to_bottom dom' (extract_rows dom gs) /\
  forall j k a b,
    (j < k)%nat ->
    nth_error (extract_rows dom gs) j = Some a ->
    nth_error (extract_rows dom gs) k = Some b ->
    (content_y dom' a + 40 < content_y dom' b)%Q.
Proof.
  intros Hsame.
  pose proof (extract_rows_content_spaced dom dom' gs Hsame) as Hs.
  assert (Hpair : forall j k a b, (j < k)%nat ->
            nth_error (extract_rows dom gs) j = Some a ->
            nth_error (extract_rows dom gs) k = Some b ->
            (content_y dom' a + 40 < content_y dom' b)%Q).
  { intros j k a b Hjk Ha Hb.
    exact (StronglySorted_nth_error _ _ Hs j k a b Hjk Ha Hb). }
  split; [| exact Hpair].
  intros j k ej ek Hjk Hj Hk.
  pose proof (array_get_Some_range _ _ _ Hj) as Hjr.
  pose proof (array_get_Some_range _ _ _ Hk) as Hkr.
  rewrite <- (Z2Nat.id j), array_get_of_nat in Hj by lia.
  rewrite <- (Z2Nat.id k), array_get_of_nat in Hk by lia.
  destruct (Z.eq_dec j k) as [-> | Hne].
  - assert (ej = ek) by congruence. subst. apply Qle_refl.
  - apply Qlt_le_weak.
    assert (Hlt : (content_y dom' ej + 40 < content_y dom' ek)%Q)
      by (apply (Hpair (Z.to_nat j) (Z.to_nat k)); [lia | exact Hj | exact Hk]).
    lra.
Qed.

(** The anchors of the example scenario, seen with the card at 100 px. *)
Lemma extracted_anchors_top_to_bottom_witness :
  top_to_bottom (surface example_ys 100) (extract_rows (surface example_ys 0) (seq 0 12)).
Proof.
  apply (extracted_anchors_top_to_bottom (surface example_ys 0) (surface example_ys 100)).
  apply surface_same_layout.
Defined.

(** X16.  [captureRows] rebuilds the anchors from the snapshot alone: it
    issues no scroll command, its anchors do not depend on the earlier refs,
    nor does the index when there is an anchor, and running it again on the
    same snapshot changes nothing. *)
Theorem captureRows_rebuilds (dom : Dom) (st st' : State) :
  exists st1 st1',
    captureRows dom st = Ok st1 /\
    captureRows dom st' = Ok st1' /\
    scrollTo_log st1 = scrollTo_log st /\
    rowsRef st1 = rowsRef st1' /\
    (rowsRef st1 <> [] -> idxRef st1 = idxRef st1') /\
    (rowsRef st1 = [] -> idxRef st1 = idxRef st) /\
    captureRows dom st1 = Ok st1.
Proof.
  pose proof (captureRows_surface_rows dom) as H.
  destruct (surface_rows dom) as [| r rows] eqn:E.
  - exists (set_rows [] st), (set_rows [] st').
    rewrite !H. repeat split; try reflexivity. simpl. congruence.
  - exists (set_idx (synced_index dom (r :: rows)) (set_rows (r :: rows) st)),
           (set_idx (synced_index dom (r :: rows)) (set_rows (r :: rows) st')).
    rewrite !H. repeat split; try reflexivity. simpl. congruence.
Qed.

(** ** Discovery order *)

Lemma keyed_perm_eq {A : Type} (k : A -> Z) (l1 : list A) :
  forall l2,
    Permutation l1 l2 -> map k l1 = map k l2 -> NoDup (map k l2) -> l1 = l2.
Proof.
  induction l1 as [| a t1 IH]; intros l2 Hp Hk Hnd.
  - apply Permutation_nil in Hp. now subst.
  - destruct l2 as [| b t2]; [discriminate |].
    simpl in Hk. inversion Hk as [[Hab Hkt]].
    assert (Heq : a = b).
    { assert (Hin : In a (b :: t2)) by (eapply Permutation_in; [exact Hp | now left]).
      destruct Hin as [Hb | Ht]; [now symmetry |].
      exfalso. simpl in Hnd. inversion Hnd as [| ? ? Hnotin _]; subst.
      apply Hnotin. rewrite <- Hab. now apply in_map. }
    subst b. f_equal. apply IH.
    + now apply Permutation_cons_inv in Hp.
    + exact Hkt.
    + simpl in Hnd. now inversion Hnd.
Qed.

Lemma apart_NoDup (l : list Z) : ForallOrdPairs apart l -> NoDup l.
Proof.
  induction 1 as [| a l Ha Hl IH]; constructor; [| exact IH].
  intros Hin. rewrite Forall_forall in Ha. specialize (Ha a Hin).
  unfold apart in Ha. rewrite Z.sub_diag in Ha. simpl in Ha. lia.
Qed.

Lemma ForallOrdPairs_to_map {A B : Type} (f : A -> B) (R : B -> B -> Prop) (l : list A) :
  ForallOrdPairs (fun a b => R (f a) (f b)) l -> ForallOrdPairs R (map f l).
Proof.
  induction 1 as [| a l Ha Hl IH]; simpl; constructor; [| exact IH].
  now rewrite Forall_map.
Qed.

Lemma sort_buckets_perm_eq (l1 l2 : list Bucket) :
  Permutation l1 l2 -> NoDup (map bucket_y l1) -> sort_buckets l1 = sort_buckets l2.
Proof.
  intros Hp Hnd. apply (keyed_perm_eq bucket_y).
  - eapply perm_trans; [apply array_sort_perm |].
    eapply perm_trans; [exact Hp | apply Permutation_sym, array_sort_perm].
  - unfold sort_buckets. rewrite !map_array_sort_key.
    apply sort_numbers_unique; [apply sort_numbers_sorted |].
    eapply perm_trans; [apply Permutation_map, Hp |].
    apply Permutation_sym, sort_numbers_perm.
  - unfold sort_buckets. rewrite map_array_sort_key.
    eapply Permutation_NoDup; [| exact Hnd].
    eapply perm_trans; [apply Permutation_map, Hp |].
    apply Permutation_sym, sort_numbers_perm.
Qed.

(** X17.  When no two stafflines have rounded tops within 2 px of each
    other, the order in which the stafflines are discovered does not matter:
    any reordering yields the same anchors in the same order. *)
Theorem extraction_order_irrelevant (dom : Dom) (gs gs' : list Element) :
  ForallOrdPairs (fun g g' => 2 <= Z.abs (rounded_top dom g - rounded_top dom g')) gs ->
  Permutation gs gs' ->
  extract_rows dom gs' = extract_rows dom gs.
Proof.
  intros Hap Hp.
  assert (Hap' : ForallOrdPairs
                   (fun g g' => apart (rounded_top dom g) (rounded_top dom g')) gs')
    by (apply ForallOrdPairs_perm with (l := gs);
        [unfold apart; intros a b H; lia | exact Hp | exact Hap]).
  unfold extract_rows.
  rewrite (bucketize_all_new dom gs Hap), (bucketize_all_new dom gs' Hap').
  rewrite (sort_buckets_perm_eq (map (new_bucket dom) gs') (map (new_bucket dom) gs)).
  - reflexivity.
  - apply Permutation_map, Permutation_sym, Hp.
  - rewrite map_map. simpl. apply apart_NoDup.
    apply (ForallOrdPairs_to_map (rounded_top dom) apart). exact Hap'.
Qed.

(** Two systems of two lines, discovered bottom system first. *)
Lemma extraction_order_irrelevant_witness :
  extract_rows (surface [0; 10; 100; 110] 0) [2%nat; 3%nat; 0%nat; 1%nat]
  = extract_rows (surface [0; 10; 100; 110] 0) [0%nat; 1%nat; 2%nat; 3%nat].
Proof.
  apply (extraction_order_irrelevant (surface [0; 10; 100; 110] 0)).
  - repeat constructor; vm_compute; discriminate.
  - apply (Permutation_app_comm [0%nat; 1%nat] [2%nat; 3%nat]).
Defined.
